(** * riotbot: the tutorial session scheduler of go-neb's Riot onboarding bot

    A shallow embedding of [services/riotbot/riotbot.go].  The Go code is a
    handful of methods on a [Tutorial] struct that send chat messages and wait
    on timers; the command handler [initTutorialFlow] either restarts a
    session or starts one in a goroutine.

    The embedding keeps the pieces of Go that the behaviour depends on:
    - [Tutorial] values are copied exactly where Go copies them (value
      receivers, [tutorials[t]], [append]); pointer receivers are modelled by
      the thread carrying the cell the receiver points to;
    - [*time.Timer] is an index into a heap of timers, so copies of a
      [Tutorial] alias the same timer;
    - a goroutine is a [Thread]; everything between two blocking points runs
      as one atomic slice, and the blocking point [<-t.timer.C] is a thread
      state of its own;
    - time is a virtual clock in nanoseconds; a timer may deliver at or after
      its deadline, never before.  *)

From Stdlib Require Import Ascii String.
From stdpp Require Import base numbers option list strings gmap.

#[local] Open Scope Z_scope.

(** ** Data *)

(** [gomatrix.TextMessage] and [gomatrix.ImageMessage], with the fields the
    service fills in. *)
Inductive Message :=
| TextMessage (MsgType Body : string)
| ImageMessage (MsgType Body URL : string).

#[global] Instance Message_eq_dec : EqDecision Message.
Proof. solve_decision. Defined.

(** [*gomatrix.Client] is opaque to the service: a client is known by name. *)
Definition Client : Type := string.

(** [TutorialStep]; [Type_] is the field [Type], [Delay] a [time.Duration]
    (an int64). *)
Record TutorialStep := {
  Type_ : string;
  Body : string;
  Src : string;
  Delay : Z
}.

(** [TutorialFlow]; [Steps] is the field [Tutorial.Steps]. *)
Record TutorialFlow := {
  ResourcesBaseURL : string;
  Templates : gmap string string;
  InitialDelay : Z;
  Steps : list TutorialStep
}.

(** [Tutorial]; [timer] is a [*time.Timer]: [None] is nil, [Some k] points to
    timer [k] of the heap. *)
Record Tutorial := {
  roomID : string;
  userID : string;
  currentStep : Z;
  timer : option nat;
  cli : Client;
  templates : gmap string string
}.

Definition set_currentStep (n : Z) (t : Tutorial) : Tutorial :=
  {| roomID := roomID t; userID := userID t; currentStep := n;
     timer := timer t; cli := cli t; templates := templates t |}.

Definition set_timer (k : option nat) (t : Tutorial) : Tutorial :=
  {| roomID := roomID t; userID := userID t; currentStep := currentStep t;
     timer := k; cli := cli t; templates := templates t |}.

(** A [time.Timer]: armed until it delivers on its channel or is stopped. *)
Inductive TimerStatus := Armed | Fired | Stopped.

#[global] Instance TimerStatus_eq_dec : EqDecision TimerStatus.
Proof. solve_decision. Defined.

Record Timer := { deadline : Z; status : TimerStatus }.

(** One call of [cli.SendMessageEvent]; [sent_at] and [sent_by] record the
    clock and the thread that made the call. *)
Record Sent := {
  sent_at : Z;
  sent_by : nat;
  sent_cli : Client;
  sent_room : string;
  sent_type : string;
  sent_content : Message
}.

(** One constructor per [log.Print*] call of the file. *)
Inductive LogEntry :=
| LogQueueing (user : string) (step delay : Z)
| LogPerforming (step : Z) (user : string)
| LogImageFailed
| LogImageSent (body : string)
| LogNoticeFailed (body : string)
| LogNoticeSent (body : string)
| LogTextFailed (body : string)
| LogTextSent (body : string)
| LogEnded
| LogTemplateCreateFailed
| LogTemplateExecFailed
| LogRestarting (idx : nat)
| LogNotFound
| LogStarting (room user : string).

(** What runs after the outermost [queueNextStep] of a thread returns: a
    goroutine just ends; the handler that called [restart] on [tutorials[idx]]
    logs and returns its response. *)
Inductive Kont := KGoroutine | KRestart (idx : nat).

(** A goroutine.  [Ready t delay] was created by [go t.queueNextStep(delay)]
    and has not run yet.  [Waiting t k] is parked at [<-t.timer.C] inside
    [queueNextStep], [t] being the struct its receiver points to; the frames
    above it never read their variables again, so they are not kept.
    [Returned r] has ended, a command handler with response [r]. *)
Inductive Thread :=
| Ready (t : Tutorial) (delay : Z)
| Waiting (t : Tutorial) (k : Kont)
| Returned (response : option string)
| Crashed.

(** The process: the clock, the package variable [tutorials], the timers, the
    calls made on the chat client, the log, and the goroutines.  [running] is
    the thread whose slice is executing. *)
Record World := {
  now : Z;
  tutorials : list Tutorial;
  timers : list Timer;
  outbox : list Sent;
  journal : list LogEntry;
  threads : list Thread;
  running : nat
}.

Definition set_now (n : Z) (w : World) : World :=
  {| now := n; tutorials := tutorials w; timers := timers w;
     outbox := outbox w; journal := journal w; threads := threads w;
     running := running w |}.

Definition set_tutorials (l : list Tutorial) (w : World) : World :=
  {| now := now w; tutorials := l; timers := timers w;
     outbox := outbox w; journal := journal w; threads := threads w;
     running := running w |}.

Definition set_timers (l : list Timer) (w : World) : World :=
  {| now := now w; tutorials := tutorials w; timers := l;
     outbox := outbox w; journal := journal w; threads := threads w;
     running := running w |}.

Definition set_outbox (l : list Sent) (w : World) : World :=
  {| now := now w; tutorials := tutorials w; timers := timers w;
     outbox := l; journal := journal w; threads := threads w;
     running := running w |}.

Definition set_journal (l : list LogEntry) (w : World) : World :=
  {| now := now w; tutorials := tutorials w; timers := timers w;
     outbox := outbox w; journal := l; threads := threads w;
     running := running w |}.

Definition set_threads (l : list Thread) (w : World) : World :=
  {| now := now w; tutorials := tutorials w; timers := timers w;
     outbox := outbox w; journal := journal w; threads := l;
     running := running w |}.

Definition set_running (i : nat) (w : World) : World :=
  {| now := now w; tutorials := tutorials w; timers := timers w;
     outbox := outbox w; journal := journal w; threads := threads w;
     running := i |}.

Definition initial : World :=
  {| now := 0; tutorials := []; timers := []; outbox := []; journal := [];
     threads := []; running := 0%nat |}.

(** ** The runtime: log, timers, int64 *)

Definition logPrint (e : LogEntry) (w : World) : World :=
  set_journal (journal w ++ [e]) w.

(** int64 arithmetic wraps. *)
Definition wrap64 (z : Z) : Z := (z + 2 ^ 63) `mod` 2 ^ 64 - 2 ^ 63.

(** [time.Millisecond], in nanoseconds. *)
Definition Millisecond : Z := 1000000.

(** [time.NewTimer(d)]: a new armed timer that delivers once [d] has passed,
    at once when [d <= 0]. *)
Definition NewTimer (d : Z) (w : World) : nat * World :=
  (length (timers w),
   set_timers (timers w ++ [{| deadline := now w + Z.max 0 d; status := Armed |}]) w).

Definition stop (tm : Timer) : Timer :=
  match status tm with
  | Armed => {| deadline := deadline tm; status := Stopped |}
  | _ => tm
  end.

(** [timer.Stop()]: an armed timer will never deliver; otherwise no effect. *)
Definition Stop (k : nat) (w : World) : World :=
  set_timers (alter stop k (timers w)) w.

(** ** Collaborators

    [text/template] and the chat transport are not part of the service; the
    development is parametric in them. *)

(** [Parse] is [template.New("message").Parse]: [None] when it returns an
    error (and a nil template).  [Execute] is [tmpl.Execute] on a parsed
    template: [None] when it returns an error. *)
Class TemplateEngine := {
  Template : Type;
  Parse : string → option Template;
  Execute : Template → gmap string string → option string
}.

(** Whether the [n]-th call of [SendMessageEvent] of the process returns an
    error. *)
Class Transport := {
  sendFails : nat → Client → string → Message → bool
}.

Section Riotbot.

Context `{TemplateEngine} `{Transport}.

(** The package variable [tutorialFlow], set once by [init]. *)
Variable tutorialFlow : TutorialFlow.

(** [NewTutorial] *)
Definition NewTutorial (room user : string) (c : Client)
    (tmpls : gmap string string) : Tutorial :=
  {| roomID := room; userID := user; currentStep := -1; timer := None;
     cli := c; templates := tmpls |}.

(** [t.cli.SendMessageEvent(t.roomID, evType, msg)]; the result is whether
    the call returned an error. *)
Definition SendMessageEvent (t : Tutorial) (evType : string) (msg : Message)
    (w : World) : bool * World :=
  (sendFails (length (outbox w)) (cli t) (roomID t) msg,
   set_outbox (outbox w ++
     [{| sent_at := now w; sent_by := running w; sent_cli := cli t;
         sent_room := roomID t; sent_type := evType; sent_content := msg |}]) w).

(** [renderBody]; the result is [None] when the call panics.  When [Parse]
    fails the code logs and goes on to [tmpl.Execute] with [tmpl] nil:
    [Execute] dereferences its receiver, and [text/template] re-raises
    runtime errors, so the call panics. *)
Definition renderBody (t : Tutorial) (ts : TutorialStep) (w : World)
    : option string * World :=
  if decide (Body ts ≠ "") then
    match Parse (Body ts) with
    | None => (None, logPrint LogTemplateCreateFailed w)
    | Some tmpl =>
        match Execute tmpl (templates t) with
        | None => (Some "", logPrint LogTemplateExecFailed w)
        | Some msg => (Some msg, w)
        end
    end
  else (Some "", w).

(** The result of running a thread up to its next blocking point. *)
Inductive Outcome :=
| Parked (t : Tutorial)
| Finished
| Panicked.

(** [tutorialFlow.Tutorial.Steps[i]]; [None] is the index-out-of-range panic. *)
Definition stepAt (i : Z) : option TutorialStep :=
  if decide (0 ≤ i) then Steps tutorialFlow !! Z.to_nat i else None.

(** The [switch step.Type] of [nextStep]; [None] when [renderBody] panics. *)
Definition nextStep_switch (t : Tutorial) (step : TutorialStep) (w : World)
    : option unit * World :=
  let base := ResourcesBaseURL tutorialFlow in
  if decide (Type_ step = "image") then
    match renderBody t step w with
    | (None, w) => (None, w)
    | (Some body, w) =>
        let msg := ImageMessage "m.image" body (base +:+ Src step) in
        let '(e, w) := SendMessageEvent t "m.room.message" msg w in
        (Some (), logPrint (if e then LogImageFailed else LogImageSent body) w)
    end
  else if decide (Type_ step = "notice") then
    match renderBody t step w with
    | (None, w) => (None, w)
    | (Some body, w) =>
        let msg := TextMessage "m.notice" body in
        let '(e, w) := SendMessageEvent t "m.room.message" msg w in
        (Some (), logPrint (if e then LogNoticeFailed body else LogNoticeSent body) w)
    end
  else
    match renderBody t step w with
    | (None, w) => (None, w)
    | (Some body, w) =>
        let msg := TextMessage "m.text" body in
        let '(e, w) := SendMessageEvent t "m.room.message" msg w in
        (Some (), logPrint (if e then LogTextFailed body else LogTextSent body) w)
    end.

(** [queueNextStep], open in the call [t.nextStep()].  With a positive delay
    the thread parks at [<-t.timer.C]; [t.nextStep()] then runs when the timer
    delivers (see [Fire]). *)
Definition queueNextStep_with (next : Tutorial → World → option (Outcome * World))
    (t : Tutorial) (delay : Z) (w : World) : option (Outcome * World) :=
  let w := match timer t with Some k => Stop k w | None => w end in
  let w := logPrint (LogQueueing (userID t) (currentStep t) delay) w in
  if decide (0 < delay) then
    let '(k, w) := NewTimer (wrap64 (Millisecond * delay)) w in
    Some (Parked (set_timer (Some k) t), w)
  else next t w.

(** [nextStep].  The receiver is a value: [t] is the callee's own copy.  The
    recursion through [queueNextStep] is bounded by [fuel]; the result is
    [None] only when [fuel] runs out.  [currentStep] never leaves
    [-1 .. len(Steps)], so the int increment does not wrap. *)
Fixpoint nextStep (fuel : nat) (t : Tutorial) (w : World)
    : option (Outcome * World) :=
  match fuel with
  | O => None
  | S fuel =>
      let t := set_currentStep (currentStep t + 1) t in
      let w := logPrint (LogPerforming (currentStep t) (userID t)) w in
      if decide (currentStep t < Z.of_nat (length (Steps tutorialFlow))) then
        match stepAt (currentStep t) with
        | None => Some (Panicked, w)
        | Some step =>
            match nextStep_switch t step w with
            | (None, w) => Some (Panicked, w)
            | (Some _, w) => queueNextStep_with (nextStep fuel) t (Delay step) w
            end
        end
      else Some (Finished, logPrint LogEnded w)
  end.

(** [queueNextStep] *)
Definition queueNextStep (fuel : nat) (t : Tutorial) (delay : Z) (w : World)
    : option (Outcome * World) :=
  queueNextStep_with (nextStep fuel) t delay w.

(** [restart] *)
Definition restart (fuel : nat) (t : Tutorial) (w : World)
    : option (Outcome * World) :=
  let w := match timer t with Some k => Stop k w | None => w end in
  let t := set_currentStep (-1) t in
  queueNextStep fuel t (InitialDelay tutorialFlow) w.

(** Fuel that is always enough (see [nextStep_total]). *)
Definition enough : nat := S (length (Steps tutorialFlow)).

(** The [for t := range tutorials] loop of [initTutorialFlow] up to its
    [if]: the first index whose [userID] matches, with a copy of the entry. *)
Fixpoint findTutorial (user : string) (t : nat) (rest : list Tutorial)
    : option (nat * Tutorial) :=
  match rest with
  | [] => None
  | tutorial :: rest =>
      if decide (userID tutorial = user) then Some (t, tutorial)
      else findTutorial user (S t) rest
  end.

(** How a thread goes on when its slice ends.  For the handler, [Finished]
    means [tutorial.restart()] has returned: it logs and returns.  A panic
    ends the thread that raised it.  In Go a panic that nothing recovers
    also ends the process, so a world in which one thread is [Crashed] and
    others go on is not a state of the running service: the worlds of the
    model are a superset of those of the process, and what holds of every
    world of the model holds of every state of the process. *)
Definition settle (k : Kont) (r : Outcome * World) : Thread * World :=
  match r with
  | (Parked t, w) => (Waiting t k, w)
  | (Panicked, w) => (Crashed, w)
  | (Finished, w) =>
      match k with
      | KGoroutine => (Returned None, w)
      | KRestart idx =>
          (Returned (Some "Restarting Riot tutorial"),
           logPrint (LogRestarting idx) w)
      end
  end.

(** [initTutorialFlow], run by the calling thread up to its return or its
    first blocking point.  The result is the state of the calling thread and
    the goroutine it has created, if any. *)
Definition initTutorialFlow (c : Client) (room user : string) (w : World)
    : option (Thread * option Thread * World) :=
  match findTutorial user 0 (tutorials w) with
  | Some (t, tutorial) =>
      r ← restart enough tutorial w;
      let '(th, w) := settle (KRestart t) r in
      Some (th, None, w)
  | None =>
      let w := logPrint LogNotFound w in
      let tutorial := NewTutorial room user c (Templates tutorialFlow) in
      let w := set_tutorials (tutorials w ++ [tutorial]) w in
      let go := Ready tutorial (InitialDelay tutorialFlow) in
      let w := logPrint (LogStarting room user) w in
      Some (Returned (Some "Starting Riot tutorial"), Some go, w)
  end.

(** ** The scheduler *)

(** What can happen next in the process. *)
Inductive Action :=
| Start (c : Client) (room user : string)
    (* the host calls the [start] command, in a thread of its own *)
| Run (i : nat)      (* goroutine [i] is scheduled for the first time *)
| Elapse (d : Z)     (* [d] nanoseconds pass *)
| Fire (i : nat).    (* the timer thread [i] waits on delivers *)

Definition setThread (i : nat) (r : Thread * World) : World :=
  set_threads (<[i := r.1]> (threads r.2)) r.2.

(** [act a w] is the world after [a], [None] when [a] cannot happen in [w]. *)
Definition act (a : Action) (w : World) : option World :=
  match a with
  | Start c room user =>
      let h := length (threads w) in
      '(th, go, w) ← initTutorialFlow c room user (set_running h w);
      Some (set_threads (threads w ++ th :: option_list go) w)
  | Run i =>
      match threads w !! i with
      | Some (Ready t delay) =>
          r ← queueNextStep enough t delay (set_running i w);
          Some (setThread i (settle KGoroutine r))
      | _ => None
      end
  | Elapse d =>
      if decide (0 ≤ d) then Some (set_now (now w + d) w) else None
  | Fire i =>
      match threads w !! i with
      | Some (Waiting t k) =>
          tm ← timer t;
          x ← timers w !! tm;
          if decide (status x = Armed ∧ deadline x ≤ now w) then
            let w := set_timers (<[tm := {| deadline := deadline x; status := Fired |}]> (timers w)) w in
            r ← nextStep enough t (set_running i w);
            Some (setThread i (settle k r))
          else None
      | _ => None
      end
  end.

(** A schedule, run from left to right. *)
Fixpoint exec (script : list Action) (w : World) : option World :=
  match script with
  | [] => Some w
  | a :: script => w ← act a w; exec script w
  end.

(** Thread [i] run to its end with every timer it waits on delivering exactly
    at its deadline (later if the clock has passed it already). *)
Fixpoint drive (fuel : nat) (i : nat) (w : World) : option World :=
  match fuel with
  | O => Some w
  | S fuel =>
      match threads w !! i with
      | Some (Ready _ _) => w ← act (Run i) w; drive fuel i w
      | Some (Waiting t _) =>
          tm ← timer t;
          x ← timers w !! tm;
          w ← act (Elapse (Z.max 0 (deadline x - now w))) w;
          w ← act (Fire i) w;
          drive fuel i w
      | _ => Some w
      end
  end.

(** ** Vocabulary of the statements *)

(** The struct a thread is working on, while it has one. *)
Definition cell (th : Thread) : option Tutorial :=
  match th with
  | Ready t _ | Waiting t _ => Some t
  | Returned _ | Crashed => None
  end.

Definition isStart (a : Action) : bool :=
  match a with Start _ _ _ => true | _ => false end.

(** The number of [start] commands in a schedule. *)
Definition starts (script : list Action) : nat :=
  length (filter (λ a, Is_true (isStart a)) script).

(** A [Tutorial] as [NewTutorial] leaves it. *)
Definition pristine (t : Tutorial) : Prop :=
  currentStep t = -1 ∧ timer t = None.

(** Every non-empty body of the flow is accepted by [Parse]. *)
Definition parsesAll : Prop :=
  ∀ step, step ∈ Steps tutorialFlow → Body step ≠ "" → is_Some (Parse (Body step)).

(** [render] as the specification words it (4.2): empty for an empty body,
    the substituted body otherwise, empty when parsing or substitution
    fails. *)
Definition specRender (variables : gmap string string) (step : TutorialStep)
    : string :=
  if decide (Body step = "") then ""
  else match Parse (Body step) with
       | None => ""
       | Some tmpl => default "" (Execute tmpl variables)
       end.

(** The message of a step as the specification words it (4.3). *)
Definition specMessage (variables : gmap string string) (step : TutorialStep)
    : Message :=
  let body := specRender variables step in
  if decide (Type_ step = "image") then
    ImageMessage "m.image" body (ResourcesBaseURL tutorialFlow +:+ Src step)
  else if decide (Type_ step = "notice") then TextMessage "m.notice" body
  else TextMessage "m.text" body.

(** The steps after index [i]. *)
Definition stepsAfter (i : Z) : list TutorialStep :=
  drop (Z.to_nat (i + 1)) (Steps tutorialFlow).

(** The messages a session still has to send, by the specification. *)
Definition pending (t : Tutorial) : list Message :=
  specMessage (templates t) <$> stepsAfter (currentStep t).

(** The messages handed to the client so far. *)
Definition contents (w : World) : list Message := sent_content <$> outbox w.

(** What a thread with continuation [k] returns when it ends. *)
Definition response (k : Kont) : option string :=
  match k with
  | KGoroutine => None
  | KRestart _ => Some "Restarting Riot tutorial"
  end.

(** A slice of a thread leaves the clock, the registry and the thread table
    alone and only adds to the outbox and to the log. *)
Definition frame (w w' : World) : Prop :=
  now w' = now w ∧ tutorials w' = tutorials w ∧ threads w' = threads w
  ∧ running w' = running w ∧ outbox w `prefix_of` outbox w'
  ∧ journal w `prefix_of` journal w'.

(** Two structs of the same session: equal up to progress and timer. *)
Definition sameSession (t t' : Tutorial) : Prop :=
  roomID t' = roomID t ∧ userID t' = userID t ∧ cli t' = cli t
  ∧ templates t' = templates t.

(** The message [nextStep_switch] builds from a rendered body. *)
Definition built (ts : TutorialStep) (body : string) : Message :=
  if decide (Type_ ts = "image") then
    ImageMessage "m.image" body (ResourcesBaseURL tutorialFlow +:+ Src ts)
  else if decide (Type_ ts = "notice") then TextMessage "m.notice" body
  else TextMessage "m.text" body.

(** The record of a [SendMessageEvent] call made by [t] in [w]. *)
Definition envelope (t : Tutorial) (w : World) (msg : Message) : Sent :=
  {| sent_at := now w; sent_by := running w; sent_cli := cli t;
     sent_room := roomID t; sent_type := "m.room.message";
     sent_content := msg |}.

(** The struct's timer, if it has one, is not armed: [Stop] on it does
    nothing. *)
Definition quiet (t : Tutorial) (w : World) : Prop :=
  ∀ k x, timer t = Some k → timers w !! k = Some x → status x ≠ Armed.

(** How a call on the client made for session [t] during a slice that
    started in [w] is recorded. *)
Definition stamped (t : Tutorial) (w : World) (s : Sent) : Prop :=
  sent_at s = now w ∧ sent_by s = running w ∧ sent_cli s = cli t
  ∧ sent_room s = roomID t ∧ sent_type s = "m.room.message".

(** What a slice for session [t] that started in [w] has done to the outbox
    and to the timers: it has added calls stamped as above, and one armed
    timer, due no earlier than now, if it has parked, none otherwise. *)
Definition sliceEffects (t : Tutorial) (w : World) (o : Outcome) (w' : World)
    : Prop :=
  (∃ sent, outbox w' = outbox w ++ sent ∧ Forall (stamped t w) sent)
  ∧ match o with
    | Parked t' =>
        ∃ x, timer t' = Some (length (timers w))
          ∧ timers w' = timers w ++ [x]
          ∧ status x = Armed ∧ now w ≤ deadline x
    | Finished | Panicked => timers w' = timers w
    end.

(** Thread [i] is parked on timer [tm]. *)
Definition waits (ths : list Thread) (i tm : nat) : Prop :=
  ∃ t k, ths !! i = Some (Waiting t k) ∧ timer t = Some tm.

(** Threads and timers fit together: a goroutine that has not run holds no
    timer; a parked thread holds a timer, which is armed and is its own; no
    timer has been stopped; every armed timer has a thread parked on it. *)
Definition Hygienic (ths : list Thread) (tms : list Timer) : Prop :=
  (∀ i t d, ths !! i = Some (Ready t d) → timer t = None)
  ∧ (∀ i t k, ths !! i = Some (Waiting t k) → is_Some (timer t))
  ∧ (∀ i tm, waits ths i tm → ∃ x, tms !! tm = Some x ∧ status x = Armed)
  ∧ (∀ i j tm, waits ths i tm → waits ths j tm → i = j)
  ∧ (∀ tm x, tms !! tm = Some x → status x ≠ Stopped)
  ∧ (∀ tm x, tms !! tm = Some x → status x = Armed → ∃ i, waits ths i tm).

Definition hygienic (w : World) : Prop := Hygienic (threads w) (timers w).

(** Every struct a thread works on is at a step of the flow, or before the
    first. *)
Definition inRange (w : World) : Prop :=
  ∀ i th t, threads w !! i = Some th → cell th = Some t →
    -1 ≤ currentStep t < Z.of_nat (length (Steps tutorialFlow)).

(** Every struct a thread works on is a copy, up to progress and timer, of a
    registry entry, and every call on the client was made for one. *)
Definition Addressed (tus : list Tutorial) (ths : list Thread)
    (obx : list Sent) : Prop :=
  (∀ i th t, ths !! i = Some th → cell th = Some t →
     ∃ r, r ∈ tus ∧ sameSession r t)
  ∧ (∀ s, s ∈ obx →
     ∃ r, r ∈ tus ∧ sent_room s = roomID r ∧ sent_cli s = cli r
          ∧ sent_type s = "m.room.message").

Definition addressed (w : World) : Prop :=
  Addressed (tutorials w) (threads w) (outbox w).

(** No thread has panicked. *)
Definition noCrash (w : World) : Prop := ∀ i, threads w !! i ≠ Some Crashed.

(** What every world the service can reach satisfies (see [exec_sound]). *)
Definition sound (w : World) : Prop :=
  Forall pristine (tutorials w) ∧ NoDup (userID <$> tutorials w)
  ∧ hygienic w ∧ inRange w ∧ addressed w.

End Riotbot.

Arguments enough : simpl never.

(** ** A stand-in for the collaborators

    Used for the concrete runs below.  The engine covers the fragment of
    [text/template] made of literal text and field actions [{{.Name}}] over a
    map: a field that is not in the map prints ["<no value>"], an action that
    is never closed is a parse error.  Anything else between the delimiters is
    outside the fragment and rejected here. *)
Module Standin.

Inductive Node := NText (s : string) | NField (name : string).

Definition isWordChar (a : Ascii.ascii) : bool :=
  let n := Ascii.nat_of_ascii a in
  ((48 <=? n) && (n <=? 57) || (65 <=? n) && (n <=? 90)
   || (97 <=? n) && (n <=? 122) || (n =? 95))%nat.

Fixpoint allWord (s : string) : bool :=
  match s with
  | EmptyString => true
  | String a s => isWordChar a && allWord s
  end.

Definition parseAction (s : string) : option Node :=
  match s with
  | String "."%char name =>
      if allWord name && negb (String.eqb name "") then Some (NField name) else None
  | _ => None
  end.

Definition after (n : nat) (s : string) : string :=
  String.substring n (String.length s - n) s.

Fixpoint parseNodes (fuel : nat) (s : string) : option (list Node) :=
  match fuel with
  | O => Some []
  | S fuel =>
      match String.index 0 "{{" s with
      | None => Some (if String.eqb s "" then [] else [NText s])
      | Some i =>
          let rest := after (i + 2) s in
          j ← String.index 0 "}}" rest;
          a ← parseAction (String.substring 0 j rest);
          l ← parseNodes fuel (after (j + 2) rest);
          Some (NText (String.substring 0 i s) :: a :: l)
      end
  end.

Definition execNode (data : gmap string string) (n : Node) : string :=
  match n with
  | NText s => s
  | NField name => default "<no value>" (data !! name)
  end.

#[export] Instance engine : TemplateEngine := {|
  Template := list Node;
  Parse s := parseNodes (S (String.length s)) s;
  Execute tmpl data := Some (String.concat "" (execNode data <$> tmpl))
|}.

(** Every send succeeds. *)
#[export] Instance transport : Transport := {| sendFails _ _ _ _ := false |}.

End Standin.

(** ** Concrete flows *)

Import Standin.

Definition step (ty body src : string) (delay : Z) : TutorialStep :=
  {| Type_ := ty; Body := body; Src := src; Delay := delay |}.

(** A text step and a notice step; the initial delay and the delay after the
    first step are ten milliseconds. *)
Definition flowAB : TutorialFlow :=
  {| ResourcesBaseURL := "http://x/"; Templates := ∅; InitialDelay := 10;
     Steps := [step "text" "a" "" 10; step "notice" "b" "" 0] |}.

(** The image scenario of the specification. *)
Definition flowImage : TutorialFlow :=
  {| ResourcesBaseURL := "http://x/"; Templates := ∅; InitialDelay := 0;
     Steps := [step "image" "" "a.png" 0] |}.

(** The greeting scenario of the specification. *)
Definition flowHi : TutorialFlow :=
  {| ResourcesBaseURL := ""; Templates := {[ "Name" := "Ann" ]};
     InitialDelay := 0;
     Steps := [step "text" "hi {{.Name}}" "" 0; step "notice" "bye" "" 0] |}.

(** A flow whose second body is an action that is never closed. *)
Definition flowBroken : TutorialFlow :=
  {| ResourcesBaseURL := ""; Templates := ∅; InitialDelay := 0;
     Steps := [step "text" "ok" "" 0; step "text" "{{" "" 0;
               step "text" "bye" "" 0] |}.

(** [n] milliseconds of virtual time. *)
Definition ms (n : Z) : Z := n * Millisecond.

(** The world a schedule of [flowAB] leads to from the initial one. *)
Definition afterAB (script : list Action) : World :=
  default initial (exec flowAB script initial).

(** Ann's session as [NewTutorial] makes it, a world whose registry holds
    it, and her [start] command. *)
Definition ann : Tutorial := NewTutorial "!room" "@ann" "neb" ∅.

Definition registered : World := set_tutorials [ann] initial.

Definition startAnn : Action := Start "neb" "!room" "@ann".

(** Ann starts the tutorial and the initial delay passes ... *)
Definition parkedAB : list Action := [startAnn; Run 1; Elapse (ms 10)].

(** ... and the first step is sent. *)
Definition oneStep : list Action := parkedAB ++ [Fire 1].

(** Ann starts the tutorial and starts it again five milliseconds later,
    while the first run waits for its initial delay; then every timer
    delivers at its deadline. *)
Definition restartedAB : list Action :=
  [startAnn; Run 1; Elapse (ms 5); startAnn;
   Elapse (ms 5); Fire 1; Elapse (ms 5); Fire 2;
   Elapse (ms 5); Fire 1; Elapse (ms 5); Fire 2].

(** Ann has started the tutorial twice: both runs wait for their initial
    delay. *)
Definition twiceAB : list Action := [startAnn; Run 1; Elapse (ms 5); startAnn].

(** A transport on which every send fails. *)
Definition failing : Transport := {| sendFails _ _ _ _ := true |}.

(** An engine that parses everything and whose every substitution fails. *)
Definition stubborn : TemplateEngine :=
  {| Template := string; Parse s := Some s; Execute _ _ := None |}.

(** When, by which thread, and what. *)
Definition view (s : Sent) : Z * nat * Message :=
  (sent_at s, sent_by s, sent_content s).

(** ** Slices: what one run of a thread up to its next blocking point does *)

Ltac frame_tac :=
  unfold frame; simpl; repeat split; try done; try reflexivity;
  try (by repeat apply prefix_app_r).

Section Slices.

Context `{TemplateEngine} `{Transport}.
Variable flow : TutorialFlow.

Lemma frame_refl w : frame w w.
Proof. frame_tac. Qed.

Lemma frame_trans w1 w2 w3 : frame w1 w2 → frame w2 w3 → frame w1 w3.
Proof.
  unfold frame. intros (-> & -> & -> & -> & ? & ?) (-> & -> & -> & -> & ? & ?).
  repeat split; try done; by etrans.
Qed.

Lemma frame_logPrint e w : frame w (logPrint e w).
Proof. frame_tac. Qed.

Lemma frame_Stop k w : frame w (Stop k w).
Proof. frame_tac. Qed.

Lemma frame_NewTimer d w : frame w (NewTimer d w).2.
Proof. frame_tac. Qed.

Lemma frame_SendMessageEvent t ty msg w : frame w (SendMessageEvent t ty msg w).2.
Proof. frame_tac. Qed.

Create HintDb frames.

#[local] Hint Resolve frame_refl frame_logPrint frame_Stop frame_NewTimer
  frame_SendMessageEvent : frames.

(** [renderBody] by cases.  An empty body and a substitution that fails both
    give the empty string; a body that does not parse gives a panic. *)
Lemma renderBody_empty t ts w :
  Body ts = "" → renderBody t ts w = (Some "", w).
Proof. intros Hb. unfold renderBody. by rewrite decide_False by (by intros []). Qed.

Lemma renderBody_parse_failure t ts w :
  Body ts ≠ "" → Parse (Body ts) = None →
  renderBody t ts w = (None, logPrint LogTemplateCreateFailed w).
Proof. intros Hb Hp. unfold renderBody. by rewrite decide_True, Hp. Qed.

Lemma renderBody_execute_failure t ts w tmpl :
  Body ts ≠ "" → Parse (Body ts) = Some tmpl →
  Execute tmpl (templates t) = None →
  renderBody t ts w = (Some "", logPrint LogTemplateExecFailed w).
Proof. intros Hb Hp He. unfold renderBody. by rewrite decide_True, Hp, He. Qed.

Lemma renderBody_success t ts w tmpl msg :
  Body ts ≠ "" → Parse (Body ts) = Some tmpl →
  Execute tmpl (templates t) = Some msg →
  renderBody t ts w = (Some msg, w).
Proof. intros Hb Hp He. unfold renderBody. by rewrite decide_True, Hp, He. Qed.

(** [renderBody] only writes to the log, and what it returns depends on the
    body and the variables alone. *)
Lemma renderBody_world t ts w :
  (renderBody t ts w).2 = w
  ∨ ∃ e, (renderBody t ts w).2 = logPrint e w.
Proof.
  unfold renderBody. case_decide; [|by left].
  destruct (Parse (Body ts)) as [tmpl|]; [|right; by eexists].
  destruct (Execute tmpl (templates t)); [by left|right; by eexists].
Qed.

Lemma renderBody_value t t' ts w w' :
  templates t = templates t' → (renderBody t ts w).1 = (renderBody t' ts w').1.
Proof.
  intros Ht. unfold renderBody. case_decide; [|done].
  destruct (Parse (Body ts)) as [tmpl|]; [|done]. rewrite Ht.
  by destruct (Execute tmpl (templates t')).
Qed.

Lemma frame_renderBody t ts w : frame w (renderBody t ts w).2.
Proof. destruct (renderBody_world t ts w) as [->|[e ->]]; auto with frames. Qed.

Lemma renderBody_timers t ts w : timers (renderBody t ts w).2 = timers w.
Proof. by destruct (renderBody_world t ts w) as [->|[e ->]]. Qed.

Lemma renderBody_outbox t ts w : outbox (renderBody t ts w).2 = outbox w.
Proof. by destruct (renderBody_world t ts w) as [->|[e ->]]. Qed.

Lemma renderBody_now t ts w : now (renderBody t ts w).2 = now w.
Proof. by destruct (renderBody_world t ts w) as [->|[e ->]]. Qed.

Lemma renderBody_running t ts w : running (renderBody t ts w).2 = running w.
Proof. by destruct (renderBody_world t ts w) as [->|[e ->]]. Qed.

Lemma nextStep_switch_panics t ts w :
  (renderBody t ts w).1 = None →
  nextStep_switch flow t ts w = (None, (renderBody t ts w).2).
Proof.
  intros Hr. unfold nextStep_switch.
  destruct (renderBody t ts w) as [[body|] w1]; simplify_eq/=.
  by repeat case_decide.
Qed.

Lemma nextStep_switch_sends t ts w body :
  (renderBody t ts w).1 = Some body →
  ∃ w', nextStep_switch flow t ts w = (Some (), w')
    ∧ outbox w' = outbox w ++ [envelope t w (built flow ts body)]
    ∧ timers w' = timers w ∧ frame w w'.
Proof.
  intros Hr. unfold nextStep_switch, built.
  pose proof (frame_renderBody t ts w) as Hf.
  pose proof (renderBody_outbox t ts w) as Ho.
  pose proof (renderBody_timers t ts w) as Ht.
  pose proof (renderBody_now t ts w) as Hn.
  pose proof (renderBody_running t ts w) as Hru.
  destruct (renderBody t ts w) as [[b|] w1]; simplify_eq/=.
  destruct Hf as (? & ? & ? & ? & ? & ?).
  repeat case_decide; eexists; (split; [done|]);
    unfold envelope, frame; simpl; rewrite Ho, Hn, Hru;
    repeat split; try done; try (by apply prefix_app_r);
    by (etrans; [|apply prefix_app_r]).
Qed.

Lemma nextStep_switch_cases t ts w :
  (∃ w', nextStep_switch flow t ts w = (None, w')
     ∧ (renderBody t ts w).1 = None ∧ frame w w' ∧ outbox w' = outbox w
     ∧ timers w' = timers w)
  ∨ (∃ body w', (renderBody t ts w).1 = Some body
     ∧ nextStep_switch flow t ts w = (Some (), w')
     ∧ outbox w' = outbox w ++ [envelope t w (built flow ts body)]
     ∧ timers w' = timers w ∧ frame w w').
Proof.
  destruct (renderBody t ts w).1 as [body|] eqn:Hr.
  - right. destruct (nextStep_switch_sends t ts w body Hr) as (w' & ?).
    by exists body, w'.
  - left. eexists. split; [by apply nextStep_switch_panics|].
    split; [done|]. split; [apply frame_renderBody|].
    split; [apply renderBody_outbox|apply renderBody_timers].
Qed.

Lemma stepAt_Some i ts :
  stepAt flow i = Some ts → 0 ≤ i < Z.of_nat (length (Steps flow)).
Proof.
  unfold stepAt. case_decide; [|done]. intros Hl%lookup_lt_Some. lia.
Qed.

Lemma length_Stop k w : length (timers (Stop k w)) = length (timers w).
Proof. simpl. apply length_alter. Qed.

(** What [nextStep] guarantees whatever the flow: it stays within its frame,
    and when it parks, the struct has moved forward to a step of the flow and
    holds a timer that is armed. *)
Lemma nextStep_slice fuel t w o w' :
  nextStep flow fuel t w = Some (o, w') →
  frame w w'
  ∧ (length (timers w) ≤ length (timers w'))%nat
  ∧ ∀ t', o = Parked t' →
      currentStep t < currentStep t' < Z.of_nat (length (Steps flow))
      ∧ sameSession t t'
      ∧ ∃ k x, timer t' = Some k ∧ timers w' !! k = Some x ∧ status x = Armed.
Proof.
  revert t w o w'. induction fuel as [|fuel IH]; intros t w o w'; [done|].
  simpl. case_decide as Hlt.
  2:{ intros [= <- <-]. split; [frame_tac|]. by split. }
  destruct (stepAt flow (currentStep t + 1)) as [ts|] eqn:Hts.
  2:{ intros [= <- <-]. split; [frame_tac|]. by split. }
  apply stepAt_Some in Hts.
  set (t1 := set_currentStep (currentStep t + 1) t).
  set (w1 := logPrint _ w).
  assert (frame w w1) as Hw1 by frame_tac.
  destruct (nextStep_switch_cases t1 ts w1)
    as [(w2 & -> & _ & Hf & _ & Htm)|(body & w2 & _ & -> & _ & Htm & Hf)].
  { intros [= <- <-]. split; [by eapply frame_trans|].
    split; [by rewrite Htm|done]. }
  unfold queueNextStep_with.
  set (w3 := match timer t1 with Some k => Stop k w2 | None => w2 end).
  assert (frame w2 w3) as Hw3 by (subst w3; destruct (timer t1); frame_tac).
  assert (length (timers w3) = length (timers w)) as Hl3.
  { subst w3. destruct (timer t1); rewrite ?length_Stop, Htm; done. }
  case_decide as Hd.
  - intros [= <- <-]. split.
    { eapply frame_trans; [apply Hw1|]. eapply frame_trans; [apply Hf|].
      eapply frame_trans; [apply Hw3|]. frame_tac. }
    split.
    { simpl. rewrite length_app. simpl in *. lia. }
    intros t' [= <-]. simpl. split; [lia|]. split; [done|].
    eexists _, _. split; [done|]. simpl.
    split; [by apply list_lookup_middle|done].
  - intros Hn. apply IH in Hn as (Hf' & Hlen & Hp). split.
    { eapply frame_trans; [apply Hw1|]. eapply frame_trans; [apply Hf|].
      eapply frame_trans; [apply Hw3|]. eapply frame_trans; [|apply Hf']. frame_tac. }
    split.
    { etrans; [|apply Hlen]. simpl in *. lia. }
    intros t' ->. destruct (Hp t' eq_refl) as (Hc & Hs & Hk). simpl in Hc.
    split; [lia|]. split; [|done].
    destruct Hs as (? & ? & ? & ?). by unfold sameSession.
Qed.

(** [enough] is enough: [nextStep] returns whatever the struct. *)
Lemma nextStep_fuel fuel t w :
  (1 ≤ fuel)%nat →
  (-1 ≤ currentStep t → Z.of_nat (length (Steps flow)) - currentStep t ≤ Z.of_nat fuel) →
  is_Some (nextStep flow fuel t w).
Proof.
  revert t w. induction fuel as [|fuel IH]; intros t w Hf Hc; [lia|].
  simpl. case_decide as Hlt; [|done].
  destruct (stepAt flow (currentStep t + 1)) as [ts|] eqn:Hts; [|done].
  apply stepAt_Some in Hts.
  destruct (nextStep_switch _ _ _ _) as [[[]|] w2]; [|done].
  unfold queueNextStep_with. case_decide; [done|].
  apply IH; simpl; lia.
Qed.

Lemma nextStep_total t w : is_Some (nextStep flow (enough flow) t w).
Proof. apply nextStep_fuel; unfold enough; lia. Qed.

Lemma queueNextStep_total t delay w :
  is_Some (queueNextStep flow (enough flow) t delay w).
Proof.
  unfold queueNextStep, queueNextStep_with. case_decide; [done|].
  apply nextStep_total.
Qed.

Lemma restart_total t w : is_Some (restart flow (enough flow) t w).
Proof. apply queueNextStep_total. Qed.

Lemma queueNextStep_slice fuel t delay w o w' :
  queueNextStep flow fuel t delay w = Some (o, w') →
  frame w w'
  ∧ (length (timers w) ≤ length (timers w'))%nat
  ∧ ∀ t', o = Parked t' →
      currentStep t ≤ currentStep t'
        ≤ currentStep t `max` (Z.of_nat (length (Steps flow)) - 1)
      ∧ sameSession t t'
      ∧ ∃ k x, timer t' = Some k ∧ timers w' !! k = Some x ∧ status x = Armed.
Proof.
  unfold queueNextStep, queueNextStep_with. case_decide as Hd.
  - intros [= <- <-]. split; [destruct (timer t); frame_tac|].
    split.
    { simpl. rewrite length_app. simpl.
      destruct (timer t); simpl; rewrite ?length_alter; lia. }
    intros t' [= <-]. simpl. split; [lia|]. split; [done|].
    eexists _, _. split; [done|]. simpl.
    split; [by apply list_lookup_middle|done].
  - intros Hn. apply nextStep_slice in Hn as (Hf & Hlen & Hp). split.
    { eapply frame_trans; [|apply Hf]. destruct (timer t); frame_tac. }
    split.
    { etrans; [|apply Hlen]. destruct (timer t); simpl; rewrite ?length_alter; lia. }
    intros t' ->. destruct (Hp t' eq_refl) as (Hc & Hs & Hk).
    split; [lia|]. split; done.
Qed.

Lemma restart_slice fuel t w o w' :
  restart flow fuel t w = Some (o, w') →
  frame w w'
  ∧ ∀ t', o = Parked t' →
      -1 ≤ currentStep t' < Z.of_nat (length (Steps flow))
      ∧ sameSession t t'
      ∧ ∃ k x, timer t' = Some k ∧ timers w' !! k = Some x ∧ status x = Armed.
Proof.
  unfold restart. intros Hq. apply queueNextStep_slice in Hq as (Hf & _ & Hp).
  split.
  { eapply frame_trans; [|apply Hf]. destruct (timer t); frame_tac. }
  intros t' ->. destruct (Hp t' eq_refl) as (Hc & Hs & Hk). simpl in Hc.
  split; [lia|]. split; [|done]. destruct Hs as (? & ? & ? & ?).
  by unfold sameSession.
Qed.

End Slices.

(** ** The message of a step *)

Section Sends.

Context `{TemplateEngine} `{Transport}.
Variable flow : TutorialFlow.

(** The first call [nextStep] makes on the client is the message of the step
    it has moved to. *)
Lemma nextStep_first_send fuel t w o w' ts body :
  stepAt flow (currentStep t + 1) = Some ts →
  (renderBody t ts w).1 = Some body →
  nextStep flow (S fuel) t w = Some (o, w') →
  outbox w' !! length (outbox w) = Some (envelope t w (built flow ts body)).
Proof.
  intros Hts Hr. pose proof (stepAt_Some flow _ _ Hts) as Hi. simpl.
  case_decide; [|lia]. rewrite Hts.
  set (t1 := set_currentStep (currentStep t + 1) t).
  set (w1 := logPrint _ w).
  rewrite (renderBody_value t t1 ts w w1) in Hr by done.
  destruct (nextStep_switch_sends flow t1 ts w1 body Hr) as (w2 & -> & Ho & _ & _).
  intros Hq. apply (queueNextStep_slice flow fuel) in Hq as (Hf & _).
  destruct Hf as (_ & _ & _ & _ & [rest Hrest] & _).
  rewrite Hrest, Ho. simpl. rewrite <-(assoc_L (++)).
  by apply list_lookup_middle.
Qed.

(** When rendering panics [nextStep] has called the client for nothing. *)
Lemma nextStep_render_panics fuel t w ts :
  stepAt flow (currentStep t + 1) = Some ts →
  (renderBody t ts w).1 = None →
  ∃ w', nextStep flow (S fuel) t w = Some (Panicked, w') ∧ outbox w' = outbox w.
Proof.
  intros Hts Hr. pose proof (stepAt_Some flow _ _ Hts) as Hi. simpl.
  case_decide; [|lia]. rewrite Hts.
  set (t1 := set_currentStep (currentStep t + 1) t).
  set (w1 := logPrint _ w).
  rewrite (renderBody_value t t1 ts w w1) in Hr by done.
  rewrite (nextStep_switch_panics flow t1 ts w1 Hr).
  eexists. split; [done|]. by rewrite renderBody_outbox.
Qed.

(** C9.  [nextStep] on a struct whose next step is [ts], [body] being what
    [renderBody] returns for it, returns, and the message it has sent for
    the step is: for type ["image"] an [m.image] message with [body] as
    caption and the base URL followed by [src] as URL; for type ["notice"]
    an [m.notice] text message with [body]; for every other type, ["text"]
    or not, an [m.text] text message with [body].  It goes to the room of
    the session as an [m.room.message] event. *)
Theorem nextStep_message_by_kind t w ts body :
  stepAt flow (currentStep t + 1) = Some ts →
  (renderBody t ts w).1 = Some body →
  ∃ o w' s,
    nextStep flow (enough flow) t w = Some (o, w')
    ∧ outbox w' !! length (outbox w) = Some s
    ∧ sent_room s = roomID t ∧ sent_cli s = cli t
    ∧ sent_type s = "m.room.message"
    ∧ (Type_ ts = "image" →
       sent_content s
       = ImageMessage "m.image" body (ResourcesBaseURL flow +:+ Src ts))
    ∧ (Type_ ts = "notice" → sent_content s = TextMessage "m.notice" body)
    ∧ (Type_ ts ≠ "image" → Type_ ts ≠ "notice" →
       sent_content s = TextMessage "m.text" body).
Proof.
  intros Hts Hr. destruct (nextStep_total flow t w) as [[o w'] Hn].
  exists o, w'. eexists. split; [done|].
  split; [by eapply (nextStep_first_send (length (Steps flow)))|].
  unfold envelope, built. simpl.
  repeat split; intros; repeat case_decide; congruence.
Qed.

(** C8.  [nextStep] on a struct whose next step is an image step returns;
    if [renderBody] returned a body the message is sent, and whenever a
    message is sent for the step its URL is the base URL immediately followed
    by the step's [src], character for character, nothing added or removed:
    ["http://x/a.png"] for base ["http://x/"] and [src] ["a.png"]. *)
Theorem image_url_is_concatenation t w ts :
  stepAt flow (currentStep t + 1) = Some ts →
  Type_ ts = "image" →
  ∃ o w',
    nextStep flow (enough flow) t w = Some (o, w')
    ∧ (∀ body, (renderBody t ts w).1 = Some body →
       ∃ s, outbox w' !! length (outbox w) = Some s
         ∧ sent_content s
           = ImageMessage "m.image" body (ResourcesBaseURL flow +:+ Src ts))
    ∧ (∀ s, outbox w' !! length (outbox w) = Some s →
       ∃ body,
         sent_content s
         = ImageMessage "m.image" body (ResourcesBaseURL flow +:+ Src ts)
         ∧ (ResourcesBaseURL flow = "http://x/" → Src ts = "a.png" →
            sent_content s = ImageMessage "m.image" body "http://x/a.png")).
Proof.
  intros Hts Hty. destruct (nextStep_total flow t w) as [[o w'] Hn].
  exists o, w'. split; [done|].
  assert (∀ body, built flow ts body
    = ImageMessage "m.image" body (ResourcesBaseURL flow +:+ Src ts)) as Hbuilt.
  { intros body. unfold built. by rewrite decide_True. }
  destruct (renderBody t ts w).1 as [body|] eqn:Hr.
  - pose proof (nextStep_first_send (length (Steps flow)) _ _ _ _ _ _ Hts Hr Hn) as Hs.
    split.
    + intros ? [= <-]. eexists. split; [done|]. simpl. apply Hbuilt.
    + intros s Hs'. rewrite Hs in Hs'. simplify_eq. exists body. simpl.
      split; [apply Hbuilt|]. intros Hbase Hsrc.
      by rewrite Hbuilt, Hbase, Hsrc.
  - split; [done|]. intros s Hs.
    destruct (nextStep_render_panics (length (Steps flow)) t w ts Hts Hr)
      as (w2 & Hn' & Ho).
    unfold enough in Hn. rewrite Hn' in Hn. simplify_eq. rewrite Ho in Hs.
    by apply lookup_lt_Some, Nat.lt_irrefl in Hs.
Qed.

(** A struct without a timer has nothing to stop: the run only adds timers. *)
Lemma nextStep_stops_nothing fuel t w o w' :
  timer t = None →
  nextStep flow fuel t w = Some (o, w') →
  timers w `prefix_of` timers w'.
Proof.
  revert t w o w'. induction fuel as [|fuel IH]; intros t w o w' Hnil; [done|].
  simpl. case_decide as Hlt; [|by intros [= <- <-]].
  destruct (stepAt flow (currentStep t + 1)) as [ts|]; [|by intros [= <- <-]].
  set (t1 := set_currentStep (currentStep t + 1) t).
  set (w1 := logPrint _ w).
  destruct (nextStep_switch_cases flow t1 ts w1)
    as [(w2 & -> & _ & _ & _ & Htm)|(body & w2 & _ & -> & _ & Htm & _)].
  { intros [= <- <-]. by rewrite Htm. }
  unfold queueNextStep_with. simpl. rewrite Hnil. case_decide as Hd.
  - intros [= <- <-]. simpl. rewrite Htm. by apply prefix_app_r.
  - intros Hn. apply IH in Hn; [|done]. simpl in Hn. by rewrite Htm in Hn.
Qed.

Lemma restart_stops_nothing fuel t w o w' :
  timer t = None →
  restart flow fuel t w = Some (o, w') →
  timers w `prefix_of` timers w'.
Proof.
  intros Hnil. unfold restart, queueNextStep, queueNextStep_with.
  simpl. rewrite Hnil. case_decide as Hd.
  - intros [= <- <-]. by apply prefix_app_r.
  - by intros Hn%nextStep_stops_nothing.
Qed.

End Sends.

(** ** A whole run, when every body parses *)

Section Runs.

Context `{TemplateEngine} `{Transport}.
Variable flow : TutorialFlow.
Hypothesis Hparses : parsesAll flow.

Lemma renderBody_specRender t ts w :
  ts ∈ Steps flow → (renderBody t ts w).1 = Some (specRender (templates t) ts).
Proof.
  intros Hin. unfold renderBody, specRender.
  destruct (decide (Body ts = "")) as [Hb|Hb].
  - rewrite decide_False by (by intros []). done.
  - rewrite decide_True by done.
    destruct (Hparses ts Hin Hb) as [tmpl ->].
    by destruct (Execute tmpl (templates t)).
Qed.

Lemma built_specMessage t ts :
  built flow ts (specRender (templates t) ts) = specMessage flow (templates t) ts.
Proof. done. Qed.

Lemma stepAt_lookup i ts :
  stepAt flow i = Some ts → ts ∈ Steps flow ∧ stepsAfter flow (i - 1) = ts :: stepsAfter flow i.
Proof.
  unfold stepAt, stepsAfter. case_decide as Hi; [|done]. intros Hl.
  split; [by eapply list_elem_of_lookup_2|].
  replace (i - 1 + 1) with i by lia.
  replace (Z.to_nat (i + 1)) with (S (Z.to_nat i)) by lia.
  by apply drop_S.
Qed.

Lemma stepAt_in_range i :
  0 ≤ i < Z.of_nat (length (Steps flow)) → is_Some (stepAt flow i).
Proof.
  intros Hi. unfold stepAt. rewrite decide_True by lia.
  apply lookup_lt_is_Some. lia.
Qed.

Lemma stepsAfter_end i :
  Z.of_nat (length (Steps flow)) ≤ i + 1 → stepsAfter flow i = [].
Proof. intros Hi. unfold stepsAfter. apply drop_ge. lia. Qed.

(** From any struct within range, [nextStep] does not panic; what it has
    sent followed by what is pending is what was sent followed by what was
    pending. *)
Lemma nextStep_run fuel t w :
  -1 ≤ currentStep t →
  Z.of_nat (length (Steps flow)) - currentStep t ≤ Z.of_nat fuel →
  (1 ≤ fuel)%nat →
  ∃ o w', nextStep flow fuel t w = Some (o, w')
    ∧ match o with
      | Finished => contents w' = contents w ++ pending flow t
      | Parked t' => contents w' ++ pending flow t' = contents w ++ pending flow t
      | Panicked => False
      end.
Proof.
  revert t w. induction fuel as [|fuel IH]; intros t w Hc Hfuel Hone; [lia|].
  simpl. case_decide as Hlt.
  2:{ eexists _, _. split; [done|]. unfold pending.
      rewrite stepsAfter_end by lia. by rewrite app_nil_r. }
  destruct (stepAt_in_range (currentStep t + 1)) as [ts Hts]; [lia|].
  rewrite Hts. apply stepAt_lookup in Hts as [Hin Hdrop].
  replace (currentStep t + 1 - 1) with (currentStep t) in Hdrop by lia.
  set (t1 := set_currentStep (currentStep t + 1) t).
  set (w1 := logPrint _ w).
  destruct (nextStep_switch_sends flow t1 ts w1 _ (renderBody_specRender t1 ts w1 Hin))
    as (w2 & -> & Ho & _ & _).
  assert (contents w2 ++ pending flow t1 = contents w ++ pending flow t) as Hsent.
  { unfold contents, pending. rewrite Ho, Hdrop. simpl.
    rewrite fmap_app, <-(assoc_L (++)). done. }
  unfold queueNextStep_with.
  set (w3 := logPrint _ _).
  assert (contents w3 = contents w2) as Hw3.
  { subst w3. by destruct (timer t1). }
  case_decide as Hd.
  - eexists _, _. split; [done|]. simpl. by rewrite <-Hsent, <-Hw3.
  - destruct (IH t1 w3) as (o & w' & -> & Ho'); [simpl; lia..|].
    exists o, w'. split; [done|].
    destruct o as [t'| |]; [| |done]; rewrite Ho', Hw3; done.
Qed.

Lemma queueNextStep_run t delay w :
  -1 ≤ currentStep t →
  ∃ o w', queueNextStep flow (enough flow) t delay w = Some (o, w')
    ∧ match o with
      | Finished => contents w' = contents w ++ pending flow t
      | Parked t' => contents w' ++ pending flow t' = contents w ++ pending flow t
      | Panicked => False
      end.
Proof.
  intros Hc. unfold queueNextStep, queueNextStep_with.
  set (w3 := logPrint _ _).
  assert (contents w3 = contents w) as Hw3.
  { subst w3. by destruct (timer t). }
  case_decide as Hd.
  - eexists _, _. split; [done|]. simpl. by rewrite <-Hw3.
  - destruct (nextStep_run (enough flow) t w3) as (o & w' & -> & Ho');
      [unfold enough; lia..|].
    exists o, w'. split; [done|].
    destruct o as [t'| |]; [| |done]; rewrite Ho', Hw3; done.
Qed.

Lemma restart_run t w :
  ∃ o w', restart flow (enough flow) t w = Some (o, w')
    ∧ match o with
      | Finished =>
          contents w' = contents w ++ (specMessage flow (templates t) <$> Steps flow)
      | Parked t' =>
          contents w' ++ pending flow t'
          = contents w ++ (specMessage flow (templates t) <$> Steps flow)
      | Panicked => False
      end.
Proof.
  unfold restart.
  set (w1 := match timer t with Some k => Stop k w | None => w end).
  assert (contents w1 = contents w) as Hw1 by (subst w1; by destruct (timer t)).
  destruct (queueNextStep_run (set_currentStep (-1) t) (InitialDelay flow) w1)
    as (o & w' & -> & Ho); [simpl; lia|].
  exists o, w'. split; [done|]. by rewrite <-Hw1.
Qed.

End Runs.

(** ** What a slice does to the timers and to the outbox *)

Section Effects.

Context `{TemplateEngine} `{Transport}.
Variable flow : TutorialFlow.

Lemma alter_stop_quiet (tms : list Timer) k :
  (∀ x, tms !! k = Some x → status x ≠ Armed) → alter stop k tms = tms.
Proof.
  intros Hq. apply list_eq. intros j. destruct (decide (j = k)) as [->|Hne].
  - rewrite list_lookup_alter_eq. destruct (tms !! k) as [x|] eqn:Hx; [|done].
    simpl. f_equal. unfold stop. specialize (Hq x eq_refl).
    by destruct (status x).
  - by rewrite list_lookup_alter_ne.
Qed.

Lemma stopOwn_quiet t w :
  quiet t w →
  timers (match timer t with Some k => Stop k w | None => w end) = timers w.
Proof.
  intros Hq. destruct (timer t) as [k|] eqn:Hk; [|done]. simpl.
  apply alter_stop_quiet. intros x Hx. by eapply Hq.
Qed.

Lemma stamped_ext t t' w w' s :
  now w' = now w → running w' = running w → cli t' = cli t →
  roomID t' = roomID t → stamped t w s → stamped t' w' s.
Proof. unfold stamped. intros -> -> -> ->. done. Qed.

Lemma nextStep_effects fuel t w o w' :
  quiet t w →
  nextStep flow fuel t w = Some (o, w') →
  sliceEffects t w o w'.
Proof.
  revert t w o w'. induction fuel as [|fuel IH]; intros t w o w' Hq; [done|].
  simpl. case_decide as Hlt.
  2:{ intros [= <- <-]. split; [|done]. exists []. by rewrite app_nil_r. }
  destruct (stepAt flow (currentStep t + 1)) as [ts|] eqn:Hts.
  2:{ intros [= <- <-]. split; [|done]. exists []. by rewrite app_nil_r. }
  set (t1 := set_currentStep (currentStep t + 1) t).
  set (w1 := logPrint _ w).
  destruct (nextStep_switch_cases flow t1 ts w1)
    as [(w2 & -> & _ & Hf & Ho & Htm)|(body & w2 & _ & -> & Ho & Htm & Hf)].
  { intros [= <- <-]. split; [|by rewrite Htm].
    exists []. by rewrite app_nil_r, Ho. }
  destruct Hf as (Hnow & _ & _ & Hrun & _).
  unfold queueNextStep_with.
  assert (quiet t1 w2) as Hq2.
  { intros k x Hk Hx. rewrite Htm in Hx. by eapply Hq. }
  pose proof (stopOwn_quiet t1 w2 Hq2) as Hstop.
  set (w3 := match timer t1 with Some k => Stop k w2 | None => w2 end) in *.
  assert (now w3 = now w ∧ running w3 = running w ∧ outbox w3 = outbox w2) as (Hn3 & Hr3 & Ho3).
  { subst w3. destruct (timer t1); simpl; rewrite Hnow, Hrun; done. }
  assert (stamped t w (envelope t1 w1 (built flow ts body))) as Hst.
  { by unfold stamped, envelope. }
  case_decide as Hd.
  - intros [= <- <-]. split.
    + exists [envelope t1 w1 (built flow ts body)]. simpl. rewrite Ho3, Ho.
      split; [done|]. by apply Forall_singleton.
    + simpl. eexists. split; [by rewrite Hstop, Htm|].
      split; [by rewrite Hstop, Htm|]. split; [done|]. simpl. rewrite Hn3. lia.
  - intros Hn. apply IH in Hn as [(sent & Hsent & Hall) Ht].
    2:{ intros k x Hk Hx. simpl in Hx. rewrite Hstop in Hx. by eapply Hq2. }
    simpl in Hsent, Ht. rewrite Hstop, Htm, ?Hn3 in Ht. split.
    + exists (envelope t1 w1 (built flow ts body) :: sent).
      rewrite Hsent, Ho3, Ho. simpl. rewrite <-(assoc_L (++)). split; [done|].
      constructor; [done|]. eapply Forall_impl; [apply Hall|].
      intros s. by apply stamped_ext.
    + destruct o; done.
Qed.

Lemma queueNextStep_effects fuel t delay w o w' :
  quiet t w →
  queueNextStep flow fuel t delay w = Some (o, w') →
  sliceEffects t w o w'.
Proof.
  intros Hq. unfold queueNextStep, queueNextStep_with.
  pose proof (stopOwn_quiet t w Hq) as Hstop.
  set (w3 := match timer t with Some k => Stop k w | None => w end) in *.
  assert (now w3 = now w ∧ running w3 = running w ∧ outbox w3 = outbox w) as (Hn3 & Hr3 & Ho3).
  { subst w3. by destruct (timer t). }
  case_decide as Hd.
  - intros [= <- <-]. split.
    + exists []. simpl. by rewrite app_nil_r.
    + simpl. eexists. split; [by rewrite Hstop|].
      split; [by rewrite Hstop|]. split; [done|]. simpl. rewrite Hn3. lia.
  - intros Hn. apply nextStep_effects in Hn as [(sent & Hsent & Hall) Ht].
    2:{ intros k x Hk Hx. simpl in Hx. rewrite Hstop in Hx. by eapply Hq. }
    simpl in Hsent, Ht. rewrite Hstop, ?Hn3 in Ht. split; [|by destruct o].
    exists sent. rewrite Hsent, Ho3. split; [done|].
    eapply Forall_impl; [apply Hall|]. intros s. by apply stamped_ext.
Qed.

Lemma restart_effects fuel t w o w' :
  quiet t w →
  restart flow fuel t w = Some (o, w') →
  sliceEffects t w o w'.
Proof.
  intros Hq. unfold restart.
  pose proof (stopOwn_quiet t w Hq) as Hstop.
  set (w1 := match timer t with Some k => Stop k w | None => w end) in *.
  assert (now w1 = now w ∧ running w1 = running w ∧ outbox w1 = outbox w) as (Hn1 & Hr1 & Ho1).
  { subst w1. by destruct (timer t). }
  intros Hr. apply queueNextStep_effects in Hr as [(sent & Hsent & Hall) Ht].
  2:{ intros k x Hk Hx. rewrite Hstop in Hx. by eapply Hq. }
  rewrite Hstop, ?Hn1 in Ht. split; [|by destruct o].
  exists sent. rewrite Hsent, Ho1. split; [done|].
  eapply Forall_impl; [apply Hall|]. intros s. by apply stamped_ext.
Qed.

Lemma wrap64_small z : 0 ≤ z < 2 ^ 63 → wrap64 z = z.
Proof. intros Hz. unfold wrap64. rewrite Z.mod_small; lia. Qed.

Lemma wrap64_large z : 2 ^ 63 ≤ z < 2 ^ 64 → wrap64 z = z - 2 ^ 64.
Proof.
  intros Hz. unfold wrap64.
  replace (z + 2 ^ 63) with (z - 2 ^ 63 + 1 * 2 ^ 64) by lia.
  rewrite Z_mod_plus_full, Z.mod_small; lia.
Qed.

(** X1.  [queueNextStep] with a positive delay parks the thread, without
    advancing the session, on a new armed timer.  For a delay of up to
    9223372036854 the timer is due that many milliseconds from now.  Beyond
    that the product with [time.Millisecond] overflows int64: for delays up
    to 18446744073709 it is negative and the timer is due at once. *)
Theorem queueNextStep_timer_due fuel t delay w :
  0 < delay →
  ∃ t' w' x,
    queueNextStep flow fuel t delay w = Some (Parked t', w')
    ∧ currentStep t' = currentStep t
    ∧ timer t' = Some (length (timers w))
    ∧ timers w' !! length (timers w) = Some x
    ∧ status x = Armed
    ∧ (delay ≤ 9223372036854 → deadline x = now w + delay * Millisecond)
    ∧ (9223372036854 < delay ≤ 18446744073709 → deadline x = now w).
Proof.
  intros Hpos. unfold queueNextStep, queueNextStep_with.
  rewrite decide_True by done.
  set (w1 := match timer t with Some k => Stop k w | None => w end).
  assert (length (timers w1) = length (timers w) ∧ now w1 = now w) as [Hlen Hnow].
  { subst w1. destruct (timer t); simpl; by rewrite ?length_alter. }
  eexists _, _, _. split; [done|]. simpl. split; [done|].
  split; [by rewrite Hlen|]. split; [by apply list_lookup_middle|].
  split; [done|]. simpl. rewrite Hnow. unfold Millisecond. split; intros Hd.
  - rewrite wrap64_small by lia. lia.
  - rewrite wrap64_large by lia. lia.
Qed.

(** X2.  A body that parses but whose substitution fails does not stop the
    session: [nextStep] logs the failure, sends the message of the step with
    an empty body, and goes on to queue the next step. *)
Theorem failed_substitution_sends_empty_body t w ts tmpl :
  stepAt flow (currentStep t + 1) = Some ts →
  Body ts ≠ "" →
  Parse (Body ts) = Some tmpl →
  Execute tmpl (templates t) = None →
  ∃ o w' e rest,
    nextStep flow (enough flow) t w = Some (o, w')
    ∧ outbox w' !! length (outbox w) = Some (envelope t w (built flow ts ""))
    ∧ journal w'
      = journal w
        ++ [LogPerforming (currentStep t + 1) (userID t);
            LogTemplateExecFailed; e;
            LogQueueing (userID t) (currentStep t + 1) (Delay ts)]
        ++ rest.
Proof.
  intros Hts Hb Hp He. destruct (nextStep_total flow t w) as [[o w'] Hn].
  exists o, w'.
  set (t1 := set_currentStep (currentStep t + 1) t).
  assert (∀ w0, renderBody t1 ts w0 = (Some "", logPrint LogTemplateExecFailed w0))
    as Hrender by (intros w0; by apply renderBody_execute_failure with tmpl).
  assert ((renderBody t ts w).1 = Some "") as Hr.
  { by rewrite (renderBody_value t t1 ts w w), Hrender. }
  pose proof (nextStep_first_send flow (length (Steps flow)) _ _ _ _ _ _ Hts Hr Hn)
    as Hsent.
  pose proof (stepAt_Some flow _ _ Hts) as Hi.
  pose proof Hn as Hn0.
  unfold enough in Hn. simpl in Hn. rewrite decide_True, Hts in Hn by lia.
  fold t1 in Hn. set (w1 := logPrint _ w) in Hn.
  assert (∃ e w2, nextStep_switch flow t1 ts w1 = (Some (), w2)
            ∧ journal w2 = journal w1 ++ [LogTemplateExecFailed; e])
    as (e & w2 & Hsw & Hj2).
  { unfold nextStep_switch. rewrite Hrender.
    repeat case_decide; simpl; eexists _, _; (split; [done|]); simpl;
      by rewrite <-(assoc_L (++)). }
  rewrite Hsw in Hn. unfold queueNextStep_with in Hn.
  set (w3 := logPrint _ _) in Hn.
  assert (journal w3 = journal w2 ++ [LogQueueing (userID t) (currentStep t + 1) (Delay ts)])
    as Hj3.
  { subst w3. by destruct (timer t1). }
  exists e.
  assert (∃ rest, journal w' = journal w3 ++ rest) as [rest Hrest].
  { case_decide.
    - simpl in Hn. simplify_eq. exists []. simpl. by rewrite app_nil_r.
    - apply nextStep_slice in Hn as (Hf & _). by destruct Hf as (_ & _ & _ & _ & _ & ?). }
  exists rest. split; [exact Hn0|]. split; [done|].
  rewrite Hrest, Hj3, Hj2. simpl. by rewrite <-!(assoc_L (++)).
Qed.

End Effects.

(** ** The transport does not steer the service *)

Section Transports.

Context {engine : TemplateEngine}.
Variables (T1 T2 : Transport) (flow : TutorialFlow).

Lemma renderBody_set_journal t ts w j :
  ∃ j', renderBody t ts (set_journal j w)
        = ((renderBody t ts w).1, set_journal j' (renderBody t ts w).2).
Proof.
  unfold renderBody. case_decide; [|by eexists].
  destruct (Parse (Body ts)) as [tmpl|]; [|by eexists].
  destruct (Execute tmpl (templates t)); by eexists.
Qed.

Lemma nextStep_switch_transport t ts w r w' :
  @nextStep_switch engine T1 flow t ts w = (r, w') →
  ∀ j, ∃ j', @nextStep_switch engine T2 flow t ts (set_journal j w)
             = (r, set_journal j' w').
Proof.
  intros Hs j. destruct (renderBody_set_journal t ts w j) as [j1 Hr].
  revert Hs. unfold nextStep_switch. rewrite Hr.
  destruct (renderBody t ts w) as [[body|] w1]; simpl;
    repeat case_decide; intros [= <- <-]; by eexists.
Qed.

Lemma nextStep_transport fuel t w o w' :
  @nextStep engine T1 flow fuel t w = Some (o, w') →
  ∀ j, ∃ j', @nextStep engine T2 flow fuel t (set_journal j w)
             = Some (o, set_journal j' w').
Proof.
  revert t w o w'. induction fuel as [|fuel IH]; intros t w o w'; [done|].
  simpl. case_decide as Hlt; [|intros [= <- <-] j; by eexists].
  destruct (stepAt flow (currentStep t + 1)) as [ts|];
    [|intros [= <- <-] j; by eexists].
  destruct (@nextStep_switch engine T1 _ _ _ _) as [r w2] eqn:Hsw.
  intros Hq j.
  destruct (nextStep_switch_transport _ _ _ _ _ Hsw
              (j ++ [LogPerforming (currentStep t + 1) (userID t)])) as [j2 Hsw2].
  change (logPrint ?e (set_journal j w))
    with (set_journal (j ++ [e]) (logPrint e w)).
  rewrite Hsw2. destruct r as [[]|]; [|simplify_eq; by eexists].
  revert Hq. unfold queueNextStep_with. case_decide.
  - intros [= <- <-]. by destruct (timer _); eexists.
  - intros Hn. destruct (timer _) as [k|]; simpl.
    + eapply IH in Hn as [j' Hn]. eexists. exact Hn.
    + eapply IH in Hn as [j' Hn]. eexists. exact Hn.
Qed.

Lemma queueNextStep_transport fuel t delay w o w' :
  @queueNextStep engine T1 flow fuel t delay w = Some (o, w') →
  ∀ j, ∃ j', @queueNextStep engine T2 flow fuel t delay (set_journal j w)
             = Some (o, set_journal j' w').
Proof.
  unfold queueNextStep, queueNextStep_with. case_decide.
  - intros [= <- <-] j. by destruct (timer _); eexists.
  - intros Hn j. destruct (timer _) as [k|]; simpl.
    + eapply nextStep_transport in Hn as [j' Hn]. eexists. exact Hn.
    + eapply nextStep_transport in Hn as [j' Hn]. eexists. exact Hn.
Qed.

Lemma restart_transport fuel t w o w' :
  @restart engine T1 flow fuel t w = Some (o, w') →
  ∀ j, ∃ j', @restart engine T2 flow fuel t (set_journal j w)
             = Some (o, set_journal j' w').
Proof.
  unfold restart. intros Hq j. destruct (timer t) as [k|].
  - eapply queueNextStep_transport in Hq as [j' Hq]. eexists. exact Hq.
  - eapply queueNextStep_transport in Hq as [j' Hq]. eexists. exact Hq.
Qed.

End Transports.

(** ** The thread pool *)

Arguments nextStep : simpl never.
Arguments queueNextStep : simpl never.
Arguments restart : simpl never.
Arguments settle : simpl never.

Section Pool.

Context `{TemplateEngine} `{Transport}.
Variable flow : TutorialFlow.

Lemma frame_settle k r : frame r.2 (settle k r).2.
Proof. destruct r as [[t| |] w], k; frame_tac. Qed.

Lemma settle_timers k r : timers (settle k r).2 = timers r.2.
Proof. by destruct r as [[t| |] w], k. Qed.

Lemma settle_cell k o w t :
  cell (settle k (o, w)).1 = Some t → o = Parked t.
Proof. destruct o, k; simpl; congruence. Qed.

(** The loop finds the first entry of the user, and only that. *)
Lemma findTutorial_Some user n l i t :
  findTutorial user n l = Some (i, t) →
  ∃ j, i = (n + j)%nat ∧ l !! j = Some t ∧ userID t = user
       ∧ ∀ j' t', (j' < j)%nat → l !! j' = Some t' → userID t' ≠ user.
Proof.
  revert n. induction l as [|x l IH]; intros n; simpl; [done|].
  case_decide as Hx.
  - intros [= <- <-]. exists 0%nat. repeat split; [lia|done|]. lia.
  - intros (j & -> & Hj & Hu & Hfirst)%IH. exists (S j).
    repeat split; [lia|done..|].
    intros [|j'] t' Hlt; simpl; [congruence|]. apply Hfirst. lia.
Qed.

Lemma findTutorial_None user n l :
  findTutorial user n l = None ↔ ∀ t, t ∈ l → userID t ≠ user.
Proof.
  revert n. induction l as [|x l IH]; intros n; simpl.
  - split; [|done]. by intros _ t ?%elem_of_nil.
  - case_decide as Hx.
    + split; [done|]. intros Hall. destruct (Hall x); [left|done].
    + rewrite IH. split.
      * intros Hall t [->|?]%elem_of_cons; auto.
      * intros Hall t ?. apply Hall. by right.
Qed.

Lemma findTutorial_first user l i t :
  l !! i = Some t → userID t = user →
  (∀ j t', (j < i)%nat → l !! j = Some t' → userID t' ≠ user) →
  findTutorial user 0 l = Some (i, t).
Proof.
  intros Hi Hu Hfirst.
  destruct (findTutorial user 0 l) as [[i' t']|] eqn:Hfind.
  - apply findTutorial_Some in Hfind as (j & -> & Hj & Hu' & Hfirst').
    simpl. destruct (Nat.lt_trichotomy i j) as [Hlt|[->|Hlt]].
    + by destruct (Hfirst' i t Hlt Hi).
    + by simplify_eq.
    + by destruct (Hfirst j t' Hlt Hj).
  - rewrite findTutorial_None in Hfind. destruct (Hfind t); [|done].
    by eapply list_elem_of_lookup_2.
Qed.

(** [initTutorialFlow] by cases on the lookup. *)
Lemma initTutorialFlow_found c room user w i t :
  findTutorial user 0 (tutorials w) = Some (i, t) →
  ∃ o w1, restart flow (enough flow) t w = Some (o, w1)
    ∧ frame w w1
    ∧ initTutorialFlow flow c room user w
      = Some ((settle (KRestart i) (o, w1)).1, None, (settle (KRestart i) (o, w1)).2).
Proof.
  intros Hfind. unfold initTutorialFlow. rewrite Hfind.
  destruct (restart_total flow t w) as [[o w1] Hr]. exists o, w1.
  split; [done|]. split; [by apply restart_slice in Hr as [? _]|].
  rewrite Hr. simpl. by destruct (settle (KRestart i) (o, w1)).
Qed.

Lemma initTutorialFlow_new c room user w :
  findTutorial user 0 (tutorials w) = None →
  ∃ w1, initTutorialFlow flow c room user w
      = Some (Returned (Some "Starting Riot tutorial"),
              Some (Ready (NewTutorial room user c (Templates flow)) (InitialDelay flow)),
              w1)
    ∧ tutorials w1 = tutorials w ++ [NewTutorial room user c (Templates flow)]
    ∧ timers w1 = timers w ∧ outbox w1 = outbox w ∧ threads w1 = threads w
    ∧ now w1 = now w.
Proof.
  intros Hfind. unfold initTutorialFlow. rewrite Hfind. by eexists.
Qed.

(** What each action does to the registry and to the thread table. *)
Lemma act_Start_found c room user w w' i t :
  findTutorial user 0 (tutorials w) = Some (i, t) →
  act flow (Start c room user) w = Some w' →
  ∃ o w1, restart flow (enough flow) t (set_running (length (threads w)) w) = Some (o, w1)
    ∧ frame (set_running (length (threads w)) w) w1
    ∧ tutorials w' = tutorials w
    ∧ threads w' = threads w ++ [(settle (KRestart i) (o, w1)).1]
    ∧ timers w' = timers w1 ∧ outbox w' = outbox w1 ∧ now w' = now w.
Proof.
  intros Hfind. simpl.
  destruct (initTutorialFlow_found c room user (set_running (length (threads w)) w) i t Hfind)
    as (o & w1 & Hr & Hf & ->).
  simpl. intros [= <-]. exists o, w1. split; [done|]. split; [done|].
  pose proof (frame_settle (KRestart i) (o, w1)) as Hs.
  pose proof (settle_timers (KRestart i) (o, w1)) as Ht.
  destruct Hf as (? & ? & ? & ? & ? & ?).
  destruct Hs as (? & ? & Hth & ? & ? & ?). simpl in *.
  rewrite Hth. repeat split; try congruence.
  destruct o, i; done.
Qed.

Lemma act_Start_new c room user w w' :
  findTutorial user 0 (tutorials w) = None →
  act flow (Start c room user) w = Some w' →
  tutorials w' = tutorials w ++ [NewTutorial room user c (Templates flow)]
  ∧ threads w' = threads w ++
      [Returned (Some "Starting Riot tutorial");
       Ready (NewTutorial room user c (Templates flow)) (InitialDelay flow)]
  ∧ timers w' = timers w ∧ outbox w' = outbox w ∧ now w' = now w.
Proof.
  intros Hfind. simpl.
  destruct (initTutorialFlow_new c room user (set_running (length (threads w)) w) Hfind)
    as (w1 & -> & ? & ? & ? & Hth & ?).
  simpl. intros [= <-]. simpl. by rewrite Hth.
Qed.

Lemma act_Run i w w' :
  act flow (Run i) w = Some w' →
  ∃ t delay o w1, threads w !! i = Some (Ready t delay)
    ∧ queueNextStep flow (enough flow) t delay (set_running i w) = Some (o, w1)
    ∧ frame (set_running i w) w1
    ∧ tutorials w' = tutorials w
    ∧ threads w' = <[i := (settle KGoroutine (o, w1)).1]> (threads w)
    ∧ timers w' = timers w1 ∧ outbox w' = outbox w1 ∧ now w' = now w.
Proof.
  simpl. destruct (threads w !! i) as [[t delay| | |]|] eqn:Hi; try done.
  destruct (queueNextStep _ _ _ _ _) as [[o w1]|] eqn:Hq; [|done].
  simpl. intros [= <-]. exists t, delay, o, w1.
  pose proof Hq as (Hf & _)%queueNextStep_slice.
  destruct Hf as (? & ? & Hth & ? & ? & ?). simpl in *.
  repeat split; try done; destruct o; simpl; congruence.
Qed.

Lemma act_Fire i w w' :
  act flow (Fire i) w = Some w' →
  ∃ t k tm x o w0 w1, threads w !! i = Some (Waiting t k)
    ∧ timer t = Some tm ∧ timers w !! tm = Some x
    ∧ status x = Armed ∧ deadline x ≤ now w
    ∧ w0 = set_running i (set_timers (<[tm := {| deadline := deadline x; status := Fired |}]> (timers w)) w)
    ∧ nextStep flow (enough flow) t w0 = Some (o, w1)
    ∧ frame w0 w1
    ∧ tutorials w' = tutorials w
    ∧ threads w' = <[i := (settle k (o, w1)).1]> (threads w)
    ∧ timers w' = timers w1 ∧ outbox w' = outbox w1 ∧ now w' = now w.
Proof.
  simpl. destruct (threads w !! i) as [[| t k | |]|] eqn:Hi; try done.
  destruct (timer t) as [tm|] eqn:Htm; [|done]. simpl.
  destruct (timers w !! tm) as [x|] eqn:Hx; [|done]. simpl.
  case_decide as Hd; [|done]. destruct Hd as [Hst Hdl].
  destruct (nextStep _ _ _ _) as [[o w1]|] eqn:Hn; [|done].
  simpl. intros [= <-]. exists t, k, tm, x, o. eexists _, w1.
  pose proof Hn as (Hf & _)%nextStep_slice.
  destruct Hf as (? & ? & Hth & ? & ? & ?). simpl in *.
  repeat split; try done; destruct o, k; simpl; congruence.
Qed.

Lemma act_Elapse d w w' :
  act flow (Elapse d) w = Some w' → 0 ≤ d ∧ w' = set_now (now w + d) w.
Proof. simpl. case_decide; [|done]. by intros [= <-]. Qed.

(** A [start] command can always be served, a goroutine that is ready can
    always run, and a timer that is armed and due can always deliver: fuel
    never stands in the way. *)
Lemma act_Start_enabled c room user w : is_Some (act flow (Start c room user) w).
Proof.
  unfold act.
  destruct (findTutorial user 0 (tutorials (set_running (length (threads w)) w)))
    as [[i t]|] eqn:Hfind.
  - destruct (initTutorialFlow_found c room user _ i t Hfind) as (o & w1 & _ & _ & ->).
    by eexists.
  - destruct (initTutorialFlow_new c room user _ Hfind) as (w1 & -> & _).
    by eexists.
Qed.

Lemma act_Run_enabled i w t delay :
  threads w !! i = Some (Ready t delay) → is_Some (act flow (Run i) w).
Proof.
  intros Hi. unfold act. rewrite Hi.
  destruct (queueNextStep_total flow t delay (set_running i w)) as [r ->].
  by eexists.
Qed.

Lemma act_Fire_enabled i w t k tm x :
  threads w !! i = Some (Waiting t k) → timer t = Some tm →
  timers w !! tm = Some x → status x = Armed → deadline x ≤ now w →
  is_Some (act flow (Fire i) w).
Proof.
  intros Hi Htm Hx Hst Hdl. unfold act. rewrite Hi, Htm. simpl. rewrite Hx. simpl.
  rewrite decide_True by done.
  match goal with |- context [nextStep flow (enough flow) t ?w0] =>
    destruct (nextStep_total flow t w0) as [r ->] end.
  by eexists.
Qed.

End Pool.

(** ** The registry and the progress of a session *)

Section Registry.

Context `{TemplateEngine} `{Transport}.
Variable flow : TutorialFlow.

Lemma act_tutorials a w w' :
  act flow a w = Some w' →
  ∃ added, tutorials w' = tutorials w ++ added ∧ Forall pristine added
    ∧ (length added ≤ starts [a])%nat.
Proof.
  assert (∀ a l, ∃ added : list Tutorial, l = l ++ added ∧ Forall pristine added
    ∧ (length added ≤ starts [a])%nat) as Hnil.
  { intros a' l. exists []. rewrite app_nil_r.
    split; [done|]. split; [constructor|simpl; lia]. }
  destruct a as [c room user|i|d|i].
  - destruct (findTutorial user 0 (tutorials w)) as [[i t]|] eqn:Hfind.
    + intros (o & w1 & _ & _ & -> & _)%(act_Start_found _ _ _ _ _ _ i t); done.
    + intros (-> & _)%act_Start_new; [|done].
      eexists. split; [done|]. split; [by apply Forall_singleton|].
      by vm_compute.
  - by intros (? & ? & ? & ? & _ & _ & _ & -> & _)%act_Run.
  - by intros [_ ->]%act_Elapse.
  - by intros (? & ? & ? & ? & ? & ? & ? & _ & _ & _ & _ & _ & _ & _ & _ & -> & _)%act_Fire.
Qed.

Lemma starts_cons a script : starts (a :: script) = (starts [a] + starts script)%nat.
Proof. unfold starts. simpl. destruct a; simpl; done. Qed.

(** C10.  The structs stored in [tutorials] are never written to.  Whatever
    the schedule, the registry afterwards is the registry before followed by
    the entries added since, at most one per [start] command; every added
    entry has [currentStep = -1] and no timer, as [NewTutorial] made it, and
    stays so: [nextStep] works on its own copy, and so does every
    [queueNextStep] it calls.  In particular a schedule without [start]
    leaves the registry as it is, however many steps it sends, and a registry
    whose entries are all at [-1] remains one. *)
Theorem registry_never_mutated script w w' :
  exec flow script w = Some w' →
  (∃ added, tutorials w' = tutorials w ++ added ∧ Forall pristine added
     ∧ (length added ≤ starts script)%nat)
  ∧ (starts script = 0%nat → tutorials w' = tutorials w)
  ∧ (Forall pristine (tutorials w) → Forall pristine (tutorials w')).
Proof.
  intros Hexec.
  assert (∃ added, tutorials w' = tutorials w ++ added ∧ Forall pristine added
     ∧ (length added ≤ starts script)%nat) as (added & Heq & Hp & Hlen).
  { revert w Hexec. induction script as [|a script IH]; intros w; simpl.
    - intros [= <-]. exists []. by rewrite app_nil_r.
    - destruct (act flow a w) as [w1|] eqn:Ha; [|done]. simpl.
      intros (l2 & -> & Hp2 & Hl2)%IH.
      apply act_tutorials in Ha as (l1 & -> & Hp1 & Hl1).
      exists (l1 ++ l2). rewrite <-(assoc_L (++)). split; [done|].
      split; [by apply Forall_app|].
      rewrite length_app, starts_cons. lia. }
  split; [by exists added|]. split.
  - intros Hzero. rewrite Hzero in Hlen. destruct added; simpl in *; [|lia].
    by rewrite app_nil_r in Heq.
  - intros Hw. rewrite Heq. by apply Forall_app.
Qed.

(** C5.  Between restarts [currentStep] only grows: whatever happens in the
    process, a thread that is still working on a session afterwards holds a
    struct whose [currentStep] is at least what it was before.  [restart] is
    what puts it back: on any struct [restart] returns or parks, the first
    thing it logs is the queueing of the next step at current step [-1], and
    if there is an initial delay to wait for, the struct it parks with is at
    [-1]. *)
Theorem currentStep_monotone_until_restart :
  (∀ a w w' i th th' t t',
     act flow a w = Some w' →
     threads w !! i = Some th → threads w' !! i = Some th' →
     cell th = Some t → cell th' = Some t' →
     currentStep t ≤ currentStep t')
  ∧ (∀ t w, ∃ o w',
     restart flow (enough flow) t w = Some (o, w')
     ∧ (∃ rest, journal w' =
          journal w ++ LogQueueing (userID t) (-1) (InitialDelay flow) :: rest)
     ∧ (0 < InitialDelay flow → ∃ t', o = Parked t' ∧ currentStep t' = -1)).
Proof.
  split.
  - intros a w w' i th th' t t' Ha Hi Hi' Hc Hc'.
    destruct a as [c room user|j|d|j].
    + assert (threads w' !! i = Some th) as Hsame.
      { destruct (findTutorial user 0 (tutorials w)) as [[n tu]|] eqn:Hfind.
        - eapply act_Start_found in Ha as (o & w1 & _ & _ & _ & -> & _); [|done].
          by apply lookup_app_l_Some.
        - eapply act_Start_new in Ha as (_ & -> & _); [|done].
          by apply lookup_app_l_Some. }
      simplify_eq. lia.
    + apply act_Run in Ha as (t0 & delay & o & w1 & Hj & Hq & _ & _ & Hth & _).
      rewrite Hth in Hi'. destruct (decide (i = j)) as [->|Hne].
      * rewrite list_lookup_insert_eq in Hi' by (by eapply lookup_lt_Some).
        simplify_eq/=. apply settle_cell in Hc' as ->.
        apply queueNextStep_slice in Hq as (_ & _ & Hp).
        destruct (Hp t' eq_refl) as [? _]. lia.
      * rewrite list_lookup_insert_ne in Hi' by done. simplify_eq. lia.
    + apply act_Elapse in Ha as [_ ->]. simpl in Hi'. simplify_eq. lia.
    + apply act_Fire in Ha
        as (t0 & k & tm & x & o & w0 & w1 & Hj & _ & _ & _ & _ & _ & Hn & _ & _ & Hth & _).
      rewrite Hth in Hi'. destruct (decide (i = j)) as [->|Hne].
      * rewrite list_lookup_insert_eq in Hi' by (by eapply lookup_lt_Some).
        simplify_eq/=. apply settle_cell in Hc' as ->.
        apply nextStep_slice in Hn as (_ & _ & Hp).
        destruct (Hp t' eq_refl) as [? _]. lia.
      * rewrite list_lookup_insert_ne in Hi' by done. simplify_eq. lia.
  - intros t w. destruct (restart_total flow t w) as [[o w'] Hr].
    exists o, w'. split; [done|]. revert Hr.
    unfold restart, queueNextStep, queueNextStep_with.
    simpl.
    set (w1 := match timer t with Some k => Stop k w | None => w end).
    set (w2 := match timer t with Some k => Stop k w1 | None => w1 end).
    assert (journal w2 = journal w) as Hj.
    { subst w1 w2. by destruct (timer t). }
    case_decide as Hd.
    + intros [= <- <-]. split.
      * exists []. simpl. by rewrite Hj.
      * intros _. by eexists.
    + intros (Hf & _)%nextStep_slice. split; [|lia].
      destruct Hf as (_ & _ & _ & _ & _ & [rest Hrest]).
      exists rest. rewrite Hrest. simpl. rewrite Hj.
      by rewrite <-(assoc_L (++)).
Qed.

(** C7.  [initTutorialFlow] scans [tutorials] from the front by [userID]:
    when entry [i] is the first of the user, the call is [restart] on a copy
    of that entry followed by the handler's return, no session is added and
    no goroutine is created; when no entry is the user's, a [NewTutorial] is
    appended, a goroutine is created for it and the call returns. *)
Theorem initTutorialFlow_find_or_create c room user w :
  (∀ i t,
     tutorials w !! i = Some t → userID t = user →
     (∀ j t', (j < i)%nat → tutorials w !! j = Some t' → userID t' ≠ user) →
     ∃ r, restart flow (enough flow) t w = Some r
       ∧ initTutorialFlow flow c room user w
         = Some ((settle (KRestart i) r).1, None, (settle (KRestart i) r).2)
       ∧ tutorials (settle (KRestart i) r).2 = tutorials w)
  ∧ ((∀ t, t ∈ tutorials w → userID t ≠ user) →
     ∃ w', initTutorialFlow flow c room user w
         = Some (Returned (Some "Starting Riot tutorial"),
                 Some (Ready (NewTutorial room user c (Templates flow))
                             (InitialDelay flow)),
                 w')
       ∧ tutorials w' = tutorials w ++ [NewTutorial room user c (Templates flow)]).
Proof.
  split.
  - intros i t Hi Hu Hfirst.
    pose proof (findTutorial_first user _ i t Hi Hu Hfirst) as Hfind.
    destruct (initTutorialFlow_found flow c room user w i t Hfind)
      as (o & w1 & Hr & Hf & Hinit).
    exists (o, w1). split; [done|]. split; [done|].
    pose proof (frame_settle (KRestart i) (o, w1)) as (_ & Ht & _).
    destruct Hf as (_ & Ht' & _). simpl in *. congruence.
  - intros Hnone. apply (findTutorial_None user 0%nat) in Hnone.
    destruct (initTutorialFlow_new flow c room user w Hnone) as (w' & ? & ? & _).
    by exists w'.
Qed.

End Registry.

(** ** Driving one thread to its end *)

Section Drive.

Context `{TemplateEngine} `{Transport}.
Variable flow : TutorialFlow.
Hypothesis Hparses : parsesAll flow.

Lemma contents_settle k r : contents (settle k r).2 = contents r.2.
Proof. by destruct r as [[t| |] w], k. Qed.

Lemma tutorials_settle k r : tutorials (settle k r).2 = tutorials r.2.
Proof. by destruct r as [[t| |] w], k. Qed.

Lemma threads_settle k r : threads (settle k r).2 = threads r.2.
Proof. by destruct r as [[t| |] w], k. Qed.

Lemma settle_Finished k w : (settle k (Finished, w)).1 = Returned (response k).
Proof. by destruct k. Qed.

Lemma settle_Parked k t w : (settle k (Parked t, w)).1 = Waiting t k.
Proof. done. Qed.

Lemma drive_ended fuel i w r :
  threads w !! i = Some (Returned r) → drive flow fuel i w = Some w.
Proof. intros Hi. destruct fuel; simpl; [done|]. by rewrite Hi. Qed.

Lemma drive_Ready fuel i w t delay r :
  threads w !! i = Some (Ready t delay) →
  queueNextStep flow (enough flow) t delay (set_running i w) = Some r →
  drive flow (S fuel) i w = drive flow fuel i (setThread i (settle KGoroutine r)).
Proof. intros Hi Hq. simpl. rewrite Hi. simpl. by rewrite Hq. Qed.

(** A thread that has returned takes no further step. *)
Lemma returned_is_terminal i w r :
  threads w !! i = Some (Returned r) →
  act flow (Run i) w = None ∧ act flow (Fire i) w = None.
Proof. intros Hi. simpl. by rewrite Hi. Qed.

Lemma drive_Waiting fuel w i t k tm x :
  threads w !! i = Some (Waiting t k) →
  timer t = Some tm → timers w !! tm = Some x → status x = Armed →
  -1 ≤ currentStep t < Z.of_nat (length (Steps flow)) →
  Z.of_nat (length (Steps flow)) - currentStep t ≤ Z.of_nat fuel →
  ∃ w', drive flow fuel i w = Some w'
    ∧ threads w' !! i = Some (Returned (response k))
    ∧ contents w' = contents w ++ pending flow t
    ∧ tutorials w' = tutorials w.
Proof.
  revert w t tm x. induction fuel as [|fuel IH]; intros w t tm x Hi Htm Hx Hst Hc Hfuel;
    [lia|].
  simpl. rewrite Hi, Htm. simpl. rewrite Hx. simpl.
  rewrite decide_True by lia. simpl. rewrite Hi, Htm. simpl. rewrite Hx. simpl.
  rewrite decide_True by (split; [done|lia]).
  set (w0 := set_running i _).
  destruct (nextStep_run flow Hparses (enough flow) t w0) as (o & w1 & Hn & Ho);
    [unfold enough; lia..|].
  rewrite Hn. simpl.
  pose proof (nextStep_slice flow _ _ _ _ _ Hn) as (Hf & _ & Hp).
  destruct Hf as (_ & Htu & Hth & _).
  assert (i < length (threads w1))%nat as Hlen.
  { rewrite Hth. simpl. by eapply lookup_lt_Some. }
  set (w2 := setThread i (settle k (o, w1))).
  assert (contents w2 = contents w1) as Hc2 by apply contents_settle.
  assert (tutorials w2 = tutorials w) as Ht2.
  { unfold w2. simpl. by rewrite tutorials_settle. }
  assert (threads w2 !! i = Some (settle k (o, w1)).1) as Hi2.
  { unfold w2. simpl. rewrite threads_settle. by apply list_lookup_insert_eq. }
  destruct o as [t'| |]; [| |done].
  - destruct (Hp t' eq_refl) as (Hc' & _ & k' & x' & Htm' & Hx' & Hst').
    destruct (IH w2 t' k' x') as (w' & -> & Hend & Hcont & Htut);
      [done|done| |done|lia|lia|].
    { exact Hx'. }
    exists w'. split; [done|]. split; [done|].
    split; [|congruence]. by rewrite Hcont, Hc2, Ho.
  - rewrite settle_Finished in Hi2. rewrite (drive_ended _ _ _ _ Hi2).
    exists w2. split; [done|]. split; [done|]. split; [|done].
    by rewrite Hc2, Ho.
Qed.

End Drive.

(** ** The command handler *)

Section Handler.

Context `{TemplateEngine} `{Transport}.
Variable flow : TutorialFlow.

(** X15.  A session that is created and left alone, in a flow whose bodies
    all parse: the goroutine sends the message of every step, in order, and
    ends; the registry has gained the one entry. *)
Lemma unrestarted_session_completes c room user w :
  parsesAll flow →
  (∀ t, t ∈ tutorials w → userID t ≠ user) →
  ∃ w1 w2,
    act flow (Start c room user) w = Some w1
    ∧ drive flow (S (enough flow)) (S (length (threads w))) w1 = Some w2
    ∧ threads w2 !! S (length (threads w)) = Some (Returned None)
    ∧ contents w2
      = contents w ++ (specMessage flow (Templates flow) <$> Steps flow)
    ∧ tutorials w2
      = tutorials w ++ [NewTutorial room user c (Templates flow)].
Proof.
  intros Hparses Hnone. apply (findTutorial_None user 0%nat) in Hnone.
  set (h := length (threads w)).
  destruct (initTutorialFlow_new flow c room user (set_running h w) Hnone)
    as (w0 & Hinit & Htu & Htm & Hout & Hth & Hnow).
  simpl in Htu, Htm, Hout, Hth, Hnow.
  set (t := NewTutorial room user c (Templates flow)) in *.
  set (w1 := set_threads (threads w0 ++
    [Returned (Some "Starting Riot tutorial"); Ready t (InitialDelay flow)]) w0).
  assert (act flow (Start c room user) w = Some w1) as Hact.
  { unfold act. fold h. by rewrite Hinit. }
  assert (threads w1 !! S h = Some (Ready t (InitialDelay flow))) as Hgo.
  { unfold w1. simpl. rewrite Hth, lookup_app_r by (unfold h; lia).
    by replace (S h - length (threads w))%nat with 1%nat by (unfold h; lia). }
  exists w1. 
  destruct (queueNextStep_run flow Hparses t (InitialDelay flow) (set_running (S h) w1))
    as (o & w2 & Hq & Ho); [done|].
  pose proof (queueNextStep_slice flow _ _ _ _ _ _ Hq) as (Hf & _ & Hp).
  destruct Hf as (_ & Htu2 & Hth2 & _). simpl in Htu2, Hth2.
  set (w3 := setThread (S h) (settle KGoroutine (o, w2))).
  assert (drive flow (S (enough flow)) (S h) w1
          = drive flow (enough flow) (S h) w3) as Hdrive.
  { by eapply drive_Ready. }
  assert (S h < length (threads w2))%nat as Hlen.
  { rewrite Hth2. by eapply lookup_lt_Some. }
  assert (threads w3 !! S h = Some (settle KGoroutine (o, w2)).1) as Hi3.
  { unfold w3. simpl. rewrite threads_settle. by apply list_lookup_insert_eq. }
  assert (contents w3 = contents w2) as Hc3 by apply contents_settle.
  assert (tutorials w3 = tutorials w ++ [t]) as Ht3.
  { unfold w3. simpl. rewrite tutorials_settle. simpl. by rewrite Htu2. }
  assert (contents (set_running (S h) w1) = contents w) as Hc1.
  { unfold contents. simpl. by rewrite Hout. }
  rewrite Hdrive. destruct o as [t'| |]; [| |done].
  - destruct (Hp t' eq_refl) as (Hc' & _ & k' & x' & Htm' & Hx' & Hst').
    simpl in Hc'.
    destruct (drive_Waiting flow Hparses (enough flow) w3 (S h) t' KGoroutine k' x')
      as (w4 & -> & Hend & Hcont & Htut); [done|done|exact Hx'|done|lia| |].
    { unfold enough. lia. }
    exists w4. split; [done|]. split; [done|]. split; [done|].
    split; [|congruence]. by rewrite Hcont, Hc3, Ho, Hc1.
  - rewrite (drive_ended _ _ _ _ _ Hi3).
    exists w3. split; [done|]. split; [done|]. split; [done|].
    split; [|done]. by rewrite Hc3, Ho, Hc1.
Qed.

Lemma existing_session_found user l :
  (∃ t, t ∈ l ∧ userID t = user) →
  ∃ i t, findTutorial user 0 l = Some (i, t).
Proof.
  intros (t & Hin & Hu).
  destruct (findTutorial user 0 l) as [[i t0]|] eqn:Hfind; [by eauto|].
  rewrite findTutorial_None in Hfind. by destruct (Hfind t Hin).
Qed.

(** C6, as the code has it.  For every invocation, the response of
    [initTutorialFlow] is ["Starting Riot tutorial"] when it creates a
    session, returned at once.  When the user has a session already, the
    only response the call can return is ["Restarting Riot tutorial"]; the
    restarted run executes inside the call, and whenever every non-empty
    body of the flow parses the call does return it, once that run has been
    through all its timers.  Nothing is said of the return when a body does
    not parse: the restarted run then panics inside the call, as it does in
    [flowBroken]. *)
Theorem initTutorialFlow_response c room user w :
  ((∀ t, t ∈ tutorials w → userID t ≠ user) →
   ∃ go w', initTutorialFlow flow c room user w
            = Some (Returned (Some "Starting Riot tutorial"), Some go, w'))
  ∧ ((∃ t, t ∈ tutorials w ∧ userID t = user) →
     (∀ th go w' r,
        initTutorialFlow flow c room user w = Some (th, go, w') →
        th = Returned r → r = Some "Restarting Riot tutorial")
     ∧ (parsesAll flow →
        ∃ w1 w2,
          act flow (Start c room user) w = Some w1
          ∧ drive flow (enough flow) (length (threads w)) w1 = Some w2
          ∧ threads w2 !! length (threads w)
            = Some (Returned (Some "Restarting Riot tutorial")))).
Proof.
  split.
  { intros Hnone. apply (findTutorial_None user 0%nat) in Hnone.
    destruct (initTutorialFlow_new flow c room user w Hnone) as (w' & ? & _).
    by eexists _, w'. }
  intros (i & t & Hfind)%existing_session_found. split.
  { intros th go w' r Hinit ->.
    destruct (initTutorialFlow_found flow c room user w i t Hfind)
      as (o & w1 & _ & _ & Hinit').
    rewrite Hinit' in Hinit. destruct o; by simplify_eq/=. }
  intros Hparses. set (h := length (threads w)).
  destruct (initTutorialFlow_found flow c room user (set_running h w) i t Hfind)
    as (o & w0 & Hr & Hf & Hinit).
  destruct Hf as (_ & _ & Hth & _). simpl in Hth.
  set (r := settle (KRestart i) (o, w0)) in *.
  set (w1 := set_threads (threads r.2 ++ [r.1]) r.2).
  assert (act flow (Start c room user) w = Some w1) as Hact.
  { unfold act. fold h. by rewrite Hinit. }
  assert (threads w1 !! h = Some r.1) as Hh.
  { unfold w1, r. simpl. rewrite threads_settle. simpl. rewrite Hth.
    by apply list_lookup_middle. }
  exists w1.
  destruct (restart_run flow Hparses t (set_running h w)) as (o' & w0' & Hr' & Ho).
  rewrite Hr in Hr'. simplify_eq.
  pose proof (restart_slice flow _ _ _ _ _ Hr) as (_ & Hp).
  destruct o' as [t'| |]; [| |done].
  - destruct (Hp t' eq_refl) as (Hc' & _ & k' & x' & Htm' & Hx' & Hst').
    destruct (drive_Waiting flow Hparses (enough flow) w1 h t' (KRestart i) k' x')
      as (w2 & Hd & Hend & _); [done|done|exact Hx'|done|lia| |].
    { unfold enough. lia. }
    by exists w2.
  - exists w1. split; [done|]. split; [|done].
    by rewrite (drive_ended _ _ _ _ _ Hh).
Qed.

(** X16.  With a positive initial delay, [initTutorialFlow] for a user who
    has a session does not return: the calling thread is parked inside
    [restart], on a timer of the initial delay. *)
Lemma restart_path_waits c room user w i t :
  findTutorial user 0 (tutorials w) = Some (i, t) →
  0 < InitialDelay flow →
  ∃ t' w',
    initTutorialFlow flow c room user w = Some (Waiting t' (KRestart i), None, w')
    ∧ timer t' = Some (length (timers w))
    ∧ timers w' !! length (timers w)
      = Some {| deadline := now w + 0 `max` wrap64 (Millisecond * InitialDelay flow);
                status := Armed |}.
Proof.
  intros Hfind Hpos. unfold initTutorialFlow. rewrite Hfind.
  unfold restart, queueNextStep, queueNextStep_with.
  rewrite decide_True by done. simpl.
  destruct (timer t) as [k|]; simpl;
    (eexists _, _; split; [done|]; simpl; rewrite ?length_alter; split; [done|]);
    apply list_lookup_middle; by rewrite ?length_alter.
Qed.

(** X17.  With a registry as the service builds it, every entry as
    [NewTutorial] left it, a [start] command stops no timer and touches no
    thread: whoever was waiting is still waiting, on a timer that is as it
    was. *)
Lemma start_cancels_nothing c room user w w' :
  Forall pristine (tutorials w) →
  act flow (Start c room user) w = Some w' →
  timers w `prefix_of` timers w' ∧ threads w `prefix_of` threads w'.
Proof.
  intros Hreg Hact.
  destruct (findTutorial user 0 (tutorials w)) as [[i t]|] eqn:Hfind.
  - pose proof Hfind as (j & _ & Hj & _)%findTutorial_Some.
    apply list_elem_of_lookup_2 in Hj.
    rewrite Forall_forall in Hreg. destruct (Hreg t Hj) as [_ Hnil].
    eapply act_Start_found in Hact as (o & w1 & Hr & _ & _ & -> & -> & _); [|done].
    split; [|by apply prefix_app_r].
    by apply restart_stops_nothing in Hr.
  - eapply act_Start_new in Hact as (_ & -> & -> & _); [|done].
    split; [done|by apply prefix_app_r].
Qed.

End Handler.

(** ** Properties of every schedule *)

Section TransportsPool.

Context {engine : TemplateEngine}.
Variables (T1 T2 : Transport) (flow : TutorialFlow).

Lemma settle_set_journal k o w j :
  ∃ j', settle k (o, set_journal j w)
        = ((settle k (o, w)).1, set_journal j' (settle k (o, w)).2).
Proof. destruct o, k; by eexists. Qed.

Lemma initTutorialFlow_transport c room user w th go w' :
  @initTutorialFlow engine T1 flow c room user w = Some (th, go, w') →
  ∀ j, ∃ j', @initTutorialFlow engine T2 flow c room user (set_journal j w)
             = Some (th, go, set_journal j' w').
Proof.
  unfold initTutorialFlow.
  change (tutorials (set_journal ?j w)) with (tutorials w).
  destruct (findTutorial user 0 (tutorials w)) as [[i t]|].
  - destruct (@restart engine T1 flow (enough flow) t w) as [[o w1]|] eqn:Hr;
      [|done].
    simpl. intros Hs j.
    destruct (restart_transport T1 T2 flow _ _ _ _ _ Hr j) as [j1 ->]. simpl.
    destruct (settle_set_journal (KRestart i) o w1 j1) as [j2 ->].
    destruct (settle (KRestart i) (o, w1)) as [th1 w2]. simplify_eq/=.
    by eexists.
  - intros [= <- <- <-] j. by eexists.
Qed.

Lemma act_transport a w w' :
  @act engine T1 flow a w = Some w' →
  ∀ j, ∃ j', @act engine T2 flow a (set_journal j w) = Some (set_journal j' w').
Proof.
  destruct a as [c room user|i|d|i]; unfold act.
  - change (threads (set_journal ?j w)) with (threads w).
    destruct (@initTutorialFlow engine T1 flow c room user _)
      as [[[th go] w1]|] eqn:Hi; [|done].
    simpl. intros [= <-] j.
    destruct (initTutorialFlow_transport _ _ _ _ _ _ _ Hi j) as [j1 Hi2].
    change (set_running ?h (set_journal j w)) with (set_journal j (set_running h w)).
    rewrite Hi2. simpl. by eexists.
  - change (threads (set_journal ?j w)) with (threads w).
    destruct (threads w !! i) as [[t delay| | |]|]; try done.
    destruct (@queueNextStep engine T1 flow _ _ _ _) as [[o w1]|] eqn:Hq; [|done].
    simpl. intros [= <-] j.
    destruct (queueNextStep_transport T1 T2 flow _ _ _ _ _ _ Hq j) as [j1 Hq2].
    change (set_running i (set_journal j w)) with (set_journal j (set_running i w)).
    rewrite Hq2. simpl.
    destruct (settle_set_journal KGoroutine o w1 j1) as [j2 ->].
    by eexists.
  - case_decide; [|done]. intros [= <-] j. by eexists.
  - change (threads (set_journal ?j w)) with (threads w).
    change (timers (set_journal ?j w)) with (timers w).
    change (now (set_journal ?j w)) with (now w).
    destruct (threads w !! i) as [[| t k | |]|]; try done.
    destruct (timer t) as [tm|]; [|done]. simpl.
    destruct (timers w !! tm) as [x|]; [|done]. simpl.
    case_decide; [|done].
    destruct (@nextStep engine T1 flow _ _ _) as [[o w1]|] eqn:Hn; [|done].
    simpl. intros [= <-] j.
    destruct (nextStep_transport T1 T2 flow _ _ _ _ _ Hn j) as [j1 Hn2].
    match goal with |- context [@nextStep engine T2 flow ?f ?t ?w0] =>
      change (@nextStep engine T2 flow f t w0)
        with (@nextStep engine T2 flow f t
                (set_journal j (set_running i
                   (set_timers (<[tm := {| deadline := deadline x; status := Fired |}]>
                                  (timers w)) w)))) end.
    rewrite Hn2. simpl.
    destruct (settle_set_journal k o w1 j1) as [j2 ->].
    by eexists.
Qed.

Lemma exec_transport script w w' :
  @exec engine T1 flow script w = Some w' →
  ∀ j, ∃ j', @exec engine T2 flow script (set_journal j w)
             = Some (set_journal j' w').
Proof.
  revert w. induction script as [|a script IH]; intros w; simpl.
  - intros [= <-] j. by eexists.
  - destruct (@act engine T1 flow a w) as [w1|] eqn:Ha; [|done]. simpl.
    intros He j. destruct (act_transport _ _ _ Ha j) as [j1 ->]. simpl.
    by apply IH.
Qed.

(** X3.  Whether sends succeed or fail shows in the log and nowhere else:
    under any two transports the same schedule is possible and leads to the
    same calls on the client, the same threads with the same responses, the
    same timers, the same registry and the same clock. *)
Theorem transport_only_shows_in_the_log script w w1 :
  @exec engine T1 flow script w = Some w1 →
  ∃ w2, @exec engine T2 flow script w = Some w2
    ∧ outbox w2 = outbox w1 ∧ threads w2 = threads w1
    ∧ timers w2 = timers w1 ∧ tutorials w2 = tutorials w1
    ∧ now w2 = now w1.
Proof.
  intros He. destruct (exec_transport _ _ _ He (journal w)) as [j' He2].
  replace (set_journal (journal w) w) with w in He2 by (by destruct w).
  by eexists.
Qed.

End TransportsPool.

(** *** Threads and timers *)

Section Hygiene.

Implicit Types (ths : list Thread) (tms : list Timer).

Lemma waits_insert ths i th' j tm :
  waits (<[i:=th']> ths) j tm ↔
    (j = i ∧ (i < length ths)%nat ∧ ∃ t k, th' = Waiting t k ∧ timer t = Some tm)
    ∨ (j ≠ i ∧ waits ths j tm).
Proof.
  split.
  - intros (t & k & Hj & Ht).
    apply list_lookup_insert_Some in Hj as [(Heq & Hth & Hlt)|[Hne Hj]].
    + left. subst. split; [done|]. split; [done|]. by exists t, k.
    + right. split; [done|]. by exists t, k.
  - intros [(-> & Hlt & t & k & -> & Ht)|[Hne (t & k & Hj & Ht)]];
      exists t, k; (split; [|done]); apply list_lookup_insert_Some;
      [by left|right; by split].
Qed.

Lemma waits_snoc ths th j tm :
  waits (ths ++ [th]) j tm ↔
    waits ths j tm
    ∨ (j = length ths ∧ ∃ t k, th = Waiting t k ∧ timer t = Some tm).
Proof.
  split.
  - intros (t & k & Hj & Ht).
    apply lookup_snoc_Some in Hj as [[_ Hj]|[-> ->]].
    + left. by exists t, k.
    + right. split; [done|]. by exists t, k.
  - intros [(t & k & Hj & Ht)|(-> & t & k & -> & Ht)];
      exists t, k; (split; [|done]).
    + by apply lookup_app_l_Some.
    + by apply list_lookup_middle.
Qed.

Lemma waits_lt ths i tm : waits ths i tm → (i < length ths)%nat.
Proof. intros (t & k & Hi & _). by eapply lookup_lt_Some. Qed.

Lemma Hygienic_idle ths tms i th' :
  Hygienic ths tms → (∀ t k, ths !! i ≠ Some (Waiting t k)) → cell th' = None →
  Hygienic (<[i:=th']> ths) tms.
Proof.
  intros (H1 & H2 & H3 & H4 & H5 & H6) Hi Hc.
  assert (∀ tm, ¬ waits ths i tm) as Hnw by (intros tm (t & k & ? & _); by eapply Hi).
  repeat split.
  - intros j t d [(-> & -> & _)|[_ Hj]]%list_lookup_insert_Some; [done|eauto].
  - intros j t k [(-> & -> & _)|[_ Hj]]%list_lookup_insert_Some; [done|eauto].
  - intros j tm [(-> & _ & t & k & -> & _)|[_ Hw]]%waits_insert; [done|eauto].
  - intros j1 j2 tm [(-> & _ & t & k & -> & _)|[_ Hw1]]%waits_insert; [done|].
    intros [(-> & _ & t & k & -> & _)|[_ Hw2]]%waits_insert; [done|eauto].
  - done.
  - intros tm x Hx Ha. destruct (H6 tm x Hx Ha) as [j Hw]. exists j.
    apply waits_insert. right. split; [|done]. intros ->. by eapply Hnw.
Qed.

Lemma Hygienic_fire ths tms i tm x th' :
  Hygienic ths tms → waits ths i tm → tms !! tm = Some x → cell th' = None →
  Hygienic (<[i:=th']> ths) (<[tm:={| deadline := deadline x; status := Fired |}]> tms).
Proof.
  intros (H1 & H2 & H3 & H4 & H5 & H6) Hw Hx Hc.
  assert (∀ tm', waits ths i tm' → tm' = tm) as Hown.
  { intros tm' (t' & k' & Hi' & Ht'). destruct Hw as (t & k & Hi & Ht).
    congruence. }
  repeat split.
  - intros j t d [(-> & -> & _)|[_ Hj]]%list_lookup_insert_Some; [done|eauto].
  - intros j t k [(-> & -> & _)|[_ Hj]]%list_lookup_insert_Some; [done|eauto].
  - intros j tm' [(-> & _ & t & k & -> & _)|[Hne Hw']]%waits_insert; [done|].
    destruct (H3 j tm' Hw') as (y & Hy & Ha). exists y. split; [|done].
    rewrite list_lookup_insert_ne; [done|]. intros ->. by destruct Hne; eauto.
  - intros j1 j2 tm' [(-> & _ & t & k & -> & _)|[_ Hw1]]%waits_insert; [done|].
    intros [(-> & _ & t & k & -> & _)|[_ Hw2]]%waits_insert; [done|eauto].
  - intros tm' y [(<- & <- & _)|[_ Hy]]%list_lookup_insert_Some; [done|eauto].
  - intros tm' y [(<- & <- & _)|[Hne Hy]]%list_lookup_insert_Some; [done|].
    intros Ha. destruct (H6 tm' y Hy Ha) as [j Hw']. exists j.
    apply waits_insert. right. split; [|done]. intros ->.
    destruct Hne. symmetry. by apply Hown.
Qed.

Lemma Hygienic_park ths tms i th t' k x :
  Hygienic ths tms → ths !! i = Some th → cell th = None →
  timer t' = Some (length tms) → status x = Armed →
  Hygienic (<[i:=Waiting t' k]> ths) (tms ++ [x]).
Proof.
  intros (H1 & H2 & H3 & H4 & H5 & H6) Hi Hc Ht' Hx.
  assert (∀ j tm, waits ths j tm → j ≠ i ∧ (tm < length tms)%nat) as Hold.
  { intros j tm Hw. split.
    - intros ->. destruct Hw as (t & k0 & Hi' & _). by simplify_eq.
    - destruct (H3 j tm Hw) as (y & Hy & _). by eapply lookup_lt_Some. }
  repeat split.
  - intros j t d [(-> & ? & _)|[_ Hj]]%list_lookup_insert_Some; [done|eauto].
  - intros j t k0 [(-> & [= <- <-] & _)|[_ Hj]]%list_lookup_insert_Some; eauto.
  - intros j tm [(-> & _ & t & k0 & [= <- <-] & Htm)|[_ Hw]]%waits_insert.
    + exists x. split; [|done]. simplify_eq. by apply list_lookup_middle.
    + destruct (H3 j tm Hw) as (y & Hy & Ha). exists y.
      split; [by apply lookup_app_l_Some|done].
  - intros j1 j2 tm [(-> & _ & t1 & k1 & [= <- <-] & Htm1)|[_ Hw1]]%waits_insert;
      intros [(-> & _ & t2 & k2 & [= <- <-] & Htm2)|[_ Hw2]]%waits_insert;
      try done; simplify_eq.
    + apply Hold in Hw2 as [_ ?]. lia.
    + apply Hold in Hw1 as [_ ?]. lia.
    + eauto.
  - intros tm y [[_ Hy]|[_ <-]]%lookup_snoc_Some; [eauto|]. by rewrite Hx.
  - intros tm y [[_ Hy]|[-> <-]]%lookup_snoc_Some Ha.
    + destruct (H6 tm y Hy Ha) as [j Hw]. exists j. apply waits_insert.
      right. split; [by apply (Hold j tm)|done].
    + exists i. apply waits_insert. left. split; [done|].
      split; [by eapply lookup_lt_Some|]. by eexists _, _.
Qed.

Lemma Hygienic_spawn ths tms th :
  Hygienic ths tms →
  match th with
  | Ready t _ => timer t = None
  | Waiting _ _ => False
  | Returned _ | Crashed => True
  end →
  Hygienic (ths ++ [th]) tms.
Proof.
  intros (H1 & H2 & H3 & H4 & H5 & H6) Hth. repeat split.
  - intros j t d [[_ Hj]|[_ ->]]%lookup_snoc_Some; eauto.
  - intros j t k [[_ Hj]|[_ ->]]%lookup_snoc_Some; [eauto|done].
  - intros j tm [Hw|(_ & t & k & -> & _)]%waits_snoc; [eauto|done].
  - intros j1 j2 tm [Hw1|(_ & t & k & -> & _)]%waits_snoc; [|done].
    intros [Hw2|(_ & t & k & -> & _)]%waits_snoc; [eauto|done].
  - done.
  - intros tm x Hx Ha. destruct (H6 tm x Hx Ha) as [j Hw]. exists j.
    apply waits_snoc. by left.
Qed.

End Hygiene.

(** *** What every reachable world satisfies *)

Section Reachable.

Context `{TemplateEngine} `{Transport}.
Variable flow : TutorialFlow.

Lemma settle_Panicked k w : (settle k (Panicked, w)).1 = Crashed.
Proof. done. Qed.

Lemma settle_not_parked k o w :
  (∀ t, o ≠ Parked t) → cell (settle k (o, w)).1 = None.
Proof. intros Ho. destruct o, k; try done; by destruct (Ho t). Qed.

Lemma insert_snoc {A} (l : list A) x y : <[length l := y]> (l ++ [x]) = l ++ [y].
Proof.
  rewrite insert_app_r_alt by lia. by rewrite Nat.sub_diag.
Qed.

Lemma pristine_quiet t w : pristine t → quiet t w.
Proof. intros [_ Hnil] k x Hk. congruence. Qed.

(** A slice that starts with a struct whose timer is not armed, installed as
    thread [i] of a table in which that thread has no struct. *)
Lemma Hygienic_settle ths tms i th t w o w' k :
  Hygienic ths tms → ths !! i = Some th → cell th = None →
  timers w = tms → sliceEffects t w o w' →
  Hygienic (<[i := (settle k (o, w')).1]> ths) (timers w').
Proof.
  intros Hh Hi Hc <- [_ Ht]. destruct o as [t'| |].
  - destruct Ht as (x & Htm & -> & Hx & _). rewrite settle_Parked.
    by eapply Hygienic_park.
  - rewrite Ht. rewrite <-(list_insert_id ths i th) at 1 by done.
    rewrite list_insert_insert_eq. apply Hygienic_idle; [done| |by destruct k].
    intros t0 k0 Hi'. by simplify_eq.
  - rewrite Ht. fold (settle k (Panicked, w')). rewrite settle_Panicked.
    apply Hygienic_idle; [done| |done].
    intros t0 k0 Hi'. by simplify_eq.
Qed.

Lemma act_hygienic a w w' :
  Forall pristine (tutorials w) → hygienic w →
  act flow a w = Some w' → hygienic w'.
Proof.
  intros Hreg Hh Ha. unfold hygienic in *.
  destruct a as [c room user|i|d|i].
  - destruct (findTutorial user 0 (tutorials w)) as [[i0 t]|] eqn:Hfind.
    + pose proof Hfind as (j & _ & Hj & _)%findTutorial_Some.
      apply list_elem_of_lookup_2 in Hj. rewrite Forall_forall in Hreg.
      eapply act_Start_found in Ha as (o & w1 & Hr & _ & _ & -> & -> & _); [|done].
      apply restart_effects in Hr; [|by apply pristine_quiet, Hreg].
      rewrite <-(insert_snoc (threads w) Crashed).
      eapply (Hygienic_settle _ _ _ Crashed); [| |done|done|exact Hr].
      * by apply Hygienic_spawn.
      * by apply list_lookup_middle.
    + eapply act_Start_new in Ha as (_ & -> & -> & _); [|done].
      match goal with |- Hygienic (?l ++ [?a; ?b]) _ =>
        replace (l ++ [a; b]) with ((l ++ [a]) ++ [b])
          by (by rewrite <-(assoc_L (++))) end.
      apply Hygienic_spawn; [|done]. by apply Hygienic_spawn.
  - apply act_Run in Ha as (t & delay & o & w1 & Hi & Hq & _ & _ & -> & -> & _).
    destruct Hh as (H1' & Hrest).
    apply queueNextStep_effects in Hq.
    2:{ intros k x Hk. by rewrite (H1' i t delay Hi) in Hk. }
    rewrite <-(list_insert_insert_eq (threads w) i _ Crashed).
    eapply (Hygienic_settle _ _ _ Crashed); [| |done|done|exact Hq].
    * apply Hygienic_idle; [done| |done]. intros t0 k0 Hi'. by simplify_eq.
    * apply list_lookup_insert_eq. by eapply lookup_lt_Some.
  - by apply act_Elapse in Ha as [_ ->].
  - apply act_Fire in Ha
      as (t & k & tm & x & o & w0 & w1 & Hi & Htm & Hx & _ & _ & -> & Hn & _ & _ & -> & -> & _).
    apply nextStep_effects in Hn.
    2:{ intros k0 y Hk Hy. simpl in Hy. simplify_eq.
        rewrite list_lookup_insert_eq in Hy by (by eapply lookup_lt_Some).
        by simplify_eq. }
    rewrite <-(list_insert_insert_eq (threads w) i _ Crashed).
    eapply (Hygienic_settle _ _ _ Crashed); [| |done|done|exact Hn].
    * eapply Hygienic_fire; [done| |done|done]. by exists t, k.
    * apply list_lookup_insert_eq. by eapply lookup_lt_Some.
Qed.

Lemma act_pristine a w w' :
  Forall pristine (tutorials w) → act flow a w = Some w' →
  Forall pristine (tutorials w').
Proof.
  intros Hreg (added & -> & Hadd & _)%act_tutorials. by apply Forall_app.
Qed.

Lemma act_NoDup a w w' :
  NoDup (userID <$> tutorials w) → act flow a w = Some w' →
  NoDup (userID <$> tutorials w').
Proof.
  intros Hnd Ha. destruct a as [c room user|i|d|i].
  - destruct (findTutorial user 0 (tutorials w)) as [[i0 t]|] eqn:Hfind.
    + by eapply act_Start_found in Ha as (o & w1 & _ & _ & -> & _).
    + eapply act_Start_new in Ha as (-> & _); [|done].
      rewrite fmap_app. apply NoDup_app. split; [done|]. split.
      * intros u (t & -> & Hin)%list_elem_of_fmap Hu. simpl in Hu.
        apply list_elem_of_singleton in Hu.
        rewrite findTutorial_None in Hfind. by destruct (Hfind t Hin).
      * simpl. apply NoDup_singleton.
  - by apply act_Run in Ha as (? & ? & ? & ? & _ & _ & _ & -> & _).
  - by apply act_Elapse in Ha as [_ ->].
  - by apply act_Fire in Ha
      as (? & ? & ? & ? & ? & ? & ? & _ & _ & _ & _ & _ & _ & _ & _ & -> & _).
Qed.

Lemma lookup_two {A} (l : list A) a b j x :
  (l ++ [a; b]) !! j = Some x → l !! j = Some x ∨ x = a ∨ x = b.
Proof.
  intros [?|[_ Hj]]%lookup_app_Some; [by left|right].
  destruct (j - length l)%nat as [|[|?]]; simplify_eq/=; auto.
Qed.

Lemma act_inRange a w w' :
  inRange flow w → act flow a w = Some w' → inRange flow w'.
Proof.
  intros Hin Ha. unfold inRange in *. destruct a as [c room user|i|d|i].
  - destruct (findTutorial user 0 (tutorials w)) as [[i0 t]|] eqn:Hfind.
    + eapply act_Start_found in Ha as (o & w1 & Hr & _ & _ & -> & _); [|done].
      intros j th t' [[_ Hj]|[_ <-]]%lookup_snoc_Some Hc; [eauto|].
      apply settle_cell in Hc as ->.
      apply restart_slice in Hr as [_ Hp]. by destruct (Hp t' eq_refl).
    + eapply act_Start_new in Ha as (_ & -> & _); [|done].
      intros j th t' [Hj|[->| ->]]%lookup_two Hc; [eauto|done|].
      simplify_eq/=. lia.
  - apply act_Run in Ha as (t & delay & o & w1 & Hi & Hq & _ & _ & -> & _).
    intros j th t' [(-> & <- & _)|[_ Hj]]%list_lookup_insert_Some Hc; [|eauto].
    apply settle_cell in Hc as ->.
    apply queueNextStep_slice in Hq as (_ & _ & Hp).
    destruct (Hp t' eq_refl) as [? _].
    specialize (Hin j (Ready t delay) t Hi eq_refl). lia.
  - apply act_Elapse in Ha as [_ ->]. exact Hin.
  - apply act_Fire in Ha
      as (t & k & tm & x & o & w0 & w1 & Hi & _ & _ & _ & _ & _ & Hn & _ & _ & -> & _).
    intros j th t' [(-> & <- & _)|[_ Hj]]%list_lookup_insert_Some Hc; [|eauto].
    apply settle_cell in Hc as ->.
    apply nextStep_slice in Hn as (_ & _ & Hp).
    destruct (Hp t' eq_refl) as [? _].
    specialize (Hin j (Waiting t k) t Hi eq_refl). lia.
Qed.

Lemma settle_Crashed k o w : (settle k (o, w)).1 = Crashed → o = Panicked.
Proof. by destruct o, k. Qed.

Lemma act_noCrash a w w' :
  parsesAll flow → inRange flow w → noCrash w →
  act flow a w = Some w' → noCrash w'.
Proof.
  intros Hparses Hin Hnc Ha. unfold noCrash in *.
  destruct a as [c room user|i|d|i].
  - destruct (findTutorial user 0 (tutorials w)) as [[i0 t]|] eqn:Hfind.
    + eapply act_Start_found in Ha as (o & w1 & Hr & _ & _ & -> & _); [|done].
      intros j [[_ Hj]|[_ Hs]]%lookup_snoc_Some; [by eapply Hnc|].
      apply settle_Crashed in Hs as ->.
      destruct (restart_run flow Hparses t (set_running (length (threads w)) w))
        as (o' & w2 & Hr' & Ho). rewrite Hr in Hr'. by simplify_eq.
    + eapply act_Start_new in Ha as (_ & -> & _); [|done].
      intros j [Hj|[?|?]]%lookup_two; [by eapply Hnc|done..].
  - apply act_Run in Ha as (t & delay & o & w1 & Hi & Hq & _ & _ & -> & _).
    intros j [(-> & Hs & _)|[_ Hj]]%list_lookup_insert_Some; [|by eapply Hnc].
    apply settle_Crashed in Hs as ->.
    destruct (queueNextStep_run flow Hparses t delay (set_running j w))
      as (o' & w2 & Hq' & Ho); [by destruct (Hin j _ t Hi eq_refl)|].
    rewrite Hq in Hq'. by simplify_eq.
  - apply act_Elapse in Ha as [_ ->]. exact Hnc.
  - apply act_Fire in Ha
      as (t & k & tm & x & o & w0 & w1 & Hi & _ & _ & _ & _ & -> & Hn & _ & _ & -> & _).
    intros j [(-> & Hs & _)|[_ Hj]]%list_lookup_insert_Some; [|by eapply Hnc].
    apply settle_Crashed in Hs as ->.
    destruct (Hin j _ t Hi eq_refl) as [Hlo Hhi].
    match type of Hn with nextStep _ _ _ ?w0 = _ =>
      destruct (nextStep_run flow Hparses (enough flow) t w0)
        as (o' & w2 & Hn' & Ho); [done|unfold enough; lia..|] end.
    rewrite Hn in Hn'. by simplify_eq.
Qed.

Lemma sameSession_refl t : sameSession t t.
Proof. done. Qed.

Lemma sameSession_trans t1 t2 t3 :
  sameSession t1 t2 → sameSession t2 t3 → sameSession t1 t3.
Proof.
  unfold sameSession. intros (? & ? & ? & ?) (? & ? & ? & ?).
  repeat split; congruence.
Qed.

Lemma Addressed_grow tus l ths obx :
  Addressed tus ths obx → Addressed (tus ++ l) ths obx.
Proof.
  intros [HA HB]. split.
  - intros i th t Hi Hc. destruct (HA i th t Hi Hc) as (r & Hr & Hs).
    exists r. split; [|done]. apply elem_of_app. by left.
  - intros s Hs. destruct (HB s Hs) as (r & Hr & Hrest).
    exists r. split; [|done]. apply elem_of_app. by left.
Qed.

Lemma Addressed_snoc tus ths obx th :
  Addressed tus ths obx →
  (∀ t, cell th = Some t → ∃ r, r ∈ tus ∧ sameSession r t) →
  Addressed tus (ths ++ [th]) obx.
Proof.
  intros [HA HB] Hth. split; [|done].
  intros i th' t [[_ Hi]|[_ <-]]%lookup_snoc_Some Hc; eauto.
Qed.

Lemma Addressed_settle tus ths i t r w o w' k :
  Addressed tus ths (outbox w) → r ∈ tus → sameSession r t →
  sliceEffects t w o w' → (∀ t', o = Parked t' → sameSession t t') →
  Addressed tus (<[i := (settle k (o, w')).1]> ths) (outbox w').
Proof.
  intros [HA HB] Hr Hs [(sent & -> & Hsent) _] Hp. split.
  - intros j th t' [(-> & <- & _)|[_ Hj]]%list_lookup_insert_Some Hc; [|eauto].
    apply settle_cell in Hc as ->. exists r. split; [done|].
    eapply sameSession_trans; [done|]. by apply Hp.
  - intros s [Hin|Hin]%elem_of_app; [eauto|].
    rewrite Forall_forall in Hsent. destruct (Hsent s Hin) as (_ & _ & Hc & Hro & Hty).
    destruct Hs as (Hroom & _ & Hcli & _). exists r. split; [done|].
    repeat split; congruence.
Qed.

Lemma act_addressed a w w' :
  Forall pristine (tutorials w) → hygienic w → addressed w →
  act flow a w = Some w' → addressed w'.
Proof.
  intros Hreg Hh Had Ha. unfold addressed in *.
  destruct a as [c room user|i|d|i].
  - destruct (findTutorial user 0 (tutorials w)) as [[i0 t]|] eqn:Hfind.
    + pose proof Hfind as (j & _ & Hj & _)%findTutorial_Some.
      apply list_elem_of_lookup_2 in Hj. rewrite Forall_forall in Hreg.
      eapply act_Start_found in Ha as (o & w1 & Hr & _ & -> & -> & _ & -> & _); [|done].
      pose proof (restart_slice flow _ _ _ _ _ Hr) as [_ Hp].
      apply restart_effects in Hr; [|by apply pristine_quiet, Hreg].
      rewrite <-(insert_snoc (threads w) Crashed).
      eapply (Addressed_settle _ _ _ t t (set_running (length (threads w)) w));
        [|done|done|exact Hr|].
      * by apply Addressed_snoc.
      * intros t' ->. by destruct (Hp t' eq_refl) as (_ & ? & _).
    + eapply act_Start_new in Ha as (-> & -> & _ & -> & _); [|done].
      match goal with |- Addressed _ (?l ++ [?a; ?b]) _ =>
        replace (l ++ [a; b]) with ((l ++ [a]) ++ [b])
          by (by rewrite <-(assoc_L (++))) end.
      apply Addressed_snoc.
      * apply Addressed_snoc; [by apply Addressed_grow|done].
      * intros t [= <-]. eexists. split; [|done].
        apply elem_of_app. right. by apply list_elem_of_singleton.
  - apply act_Run in Ha as (t & delay & o & w1 & Hi & Hq & _ & -> & -> & _ & -> & _).
    destruct Hh as (H1' & _).
    destruct (proj1 Had i _ t Hi eq_refl) as (r & Hr & Hs).
    pose proof (queueNextStep_slice flow _ _ _ _ _ _ Hq) as (_ & _ & Hp).
    apply queueNextStep_effects in Hq.
    2:{ intros k x Hk. by rewrite (H1' i t delay Hi) in Hk. }
    eapply (Addressed_settle _ _ _ t r (set_running i w)); [done|done|done|exact Hq|].
    intros t' ->. by destruct (Hp t' eq_refl) as (_ & ? & _).
  - by apply act_Elapse in Ha as [_ ->].
  - apply act_Fire in Ha
      as (t & k & tm & x & o & w0 & w1 & Hi & Htm & Hx & _ & _ & -> & Hn & _ & -> & -> & _ & -> & _).
    destruct (proj1 Had i _ t Hi eq_refl) as (r & Hr & Hs).
    pose proof (nextStep_slice flow _ _ _ _ _ Hn) as (_ & _ & Hp).
    apply nextStep_effects in Hn.
    2:{ intros k0 y Hk Hy. simpl in Hy. simplify_eq.
        rewrite list_lookup_insert_eq in Hy by (by eapply lookup_lt_Some).
        by simplify_eq. }
    match type of Hn with sliceEffects _ ?w0 _ _ =>
      eapply (Addressed_settle _ _ _ t r w0); [done|done|done|exact Hn|] end.
    intros t' ->. by destruct (Hp t' eq_refl) as (_ & ? & _).
Qed.

Lemma initial_sound : sound flow initial.
Proof.
  split; [constructor|]. split; [constructor|]. split; [|split].
  - unfold hygienic, Hygienic, waits. simpl.
    repeat split; try (intros; by simplify_eq/=).
    + intros i tm (t & k & Hi & _). done.
    + intros i j tm (t & k & Hi & _). done.
  - intros i th t Hi. done.
  - split; [intros i th t Hi; done|].
    intros s Hs. by apply elem_of_nil in Hs.
Qed.

Lemma act_sound a w w' : sound flow w → act flow a w = Some w' → sound flow w'.
Proof.
  intros (Hreg & Hnd & Hh & Hin & Had) Ha. split; [by eapply act_pristine|].
  split; [by eapply act_NoDup|]. split; [by eapply act_hygienic|].
  split; [by eapply act_inRange|by eapply act_addressed].
Qed.

Lemma exec_sound script w w' :
  sound flow w → exec flow script w = Some w' → sound flow w'.
Proof.
  revert w. induction script as [|a script IH]; intros w Hs; simpl.
  - by intros [= <-].
  - destruct (act flow a w) as [w1|] eqn:Ha; [|done]. simpl.
    apply IH. by eapply act_sound.
Qed.

Lemma exec_noCrash script w w' :
  parsesAll flow → sound flow w → noCrash w →
  exec flow script w = Some w' → noCrash w'.
Proof.
  intros Hparses. revert w. induction script as [|a script IH]; intros w Hs Hnc; simpl.
  - by intros [= <-].
  - destruct (act flow a w) as [w1|] eqn:Ha; [|done]. simpl.
    apply IH; [by eapply act_sound|].
    eapply act_noCrash; [done| |done|done]. by destruct Hs as (_ & _ & _ & ? & _).
Qed.

(** X5.  No timer is ever stopped.  Whatever the schedule from the start of
    the process, the two [t.timer.Stop()] calls of the file only ever meet a
    nil timer or one that has delivered already. *)
Theorem no_timer_is_ever_stopped script w :
  exec flow script initial = Some w →
  ∀ tm x, timers w !! tm = Some x → status x ≠ Stopped.
Proof.
  intros He. apply exec_sound in He; [|apply initial_sound].
  by destruct He as (_ & _ & (_ & _ & _ & _ & ? & _) & _).
Qed.

(** X6.  One pending timer per waiting thread.  Whatever the schedule from
    the start of the process, every parked thread holds a timer that is
    armed, no two parked threads hold the same timer, and every armed timer
    is held by a parked thread. *)
Theorem one_armed_timer_per_parked_thread script w :
  exec flow script initial = Some w →
  (∀ i t k, threads w !! i = Some (Waiting t k) →
     ∃ tm x, timer t = Some tm ∧ timers w !! tm = Some x ∧ status x = Armed)
  ∧ (∀ i j t t' k k' tm,
     threads w !! i = Some (Waiting t k) →
     threads w !! j = Some (Waiting t' k') →
     timer t = Some tm → timer t' = Some tm → i = j)
  ∧ (∀ tm x, timers w !! tm = Some x → status x = Armed →
     ∃ i t k, threads w !! i = Some (Waiting t k) ∧ timer t = Some tm).
Proof.
  intros He. apply exec_sound in He; [|apply initial_sound].
  destruct He as (_ & _ & (_ & H2 & H3 & H4 & _ & H6) & _). repeat split.
  - intros i t k Hi. destruct (H2 i t k Hi) as [tm Htm].
    destruct (H3 i tm) as (x & ? & ?); [by exists t, k|]. by exists tm, x.
  - intros i j t t' k k' tm Hi Hj Ht Ht'.
    apply (H4 i j tm); by eexists _, _.
  - intros tm x Hx Ha. destruct (H6 tm x Hx Ha) as (i & t & k & ? & ?).
    by exists i, t, k.
Qed.

(** X7.  No session hangs.  Whatever the schedule from the start of the
    process, as long as no thread has panicked, every parked thread can go
    on: once enough time has passed, its timer can deliver and its next
    slice runs. *)
Theorem parked_thread_can_always_go_on script w i t k :
  exec flow script initial = Some w →
  noCrash w →
  threads w !! i = Some (Waiting t k) →
  ∃ d w1, 0 ≤ d ∧ act flow (Elapse d) w = Some w1
    ∧ noCrash w1
    ∧ is_Some (act flow (Fire i) w1).
Proof.
  intros He Hnc Hi. apply exec_sound in He; [|apply initial_sound].
  destruct He as (_ & _ & (_ & H2 & H3 & _) & _).
  destruct (H2 i t k Hi) as [tm Htm].
  destruct (H3 i tm) as (x & Hx & Ha); [by exists t, k|].
  exists (0 `max` (deadline x - now w)), (set_now (now w + 0 `max` (deadline x - now w)) w).
  split; [lia|]. split; [|split].
  - simpl. by rewrite decide_True by lia.
  - exact Hnc.
  - eapply act_Fire_enabled; [done..|simpl; lia].
Qed.

(** X8.  [currentStep] stays in range.  Whatever the schedule from the start
    of the process, every struct a thread works on has [currentStep] between
    [-1] and [len(Steps) - 1]: the increment in [nextStep] never overflows
    and the index into [Steps] is never out of range. *)
Theorem currentStep_stays_in_range script w i th t :
  exec flow script initial = Some w →
  threads w !! i = Some th → cell th = Some t →
  -1 ≤ currentStep t < Z.of_nat (length (Steps flow))
  ∧ (currentStep t + 1 < Z.of_nat (length (Steps flow)) →
     is_Some (stepAt flow (currentStep t + 1))).
Proof.
  intros He Hi Hc. apply exec_sound in He; [|apply initial_sound].
  destruct He as (_ & _ & _ & Hin & _).
  specialize (Hin i th t Hi Hc). split; [done|]. intros Hlt.
  unfold stepAt. rewrite decide_True by lia. apply lookup_lt_is_Some. lia.
Qed.

(** X9.  Sessions crash on bodies that do not parse, and on nothing else: in
    a flow whose non-empty bodies all parse, no thread ever panics, whatever
    the schedule from the start of the process. *)
Theorem no_crash_when_bodies_parse script w :
  parsesAll flow →
  exec flow script initial = Some w →
  ∀ i, threads w !! i ≠ Some Crashed.
Proof.
  intros Hparses He. eapply exec_noCrash; [done|apply initial_sound| |done].
  intros i. done.
Qed.

(** X10.  One registry entry per user.  Whatever the schedule from the start
    of the process, no two entries of [tutorials] have the same [userID]. *)
Theorem one_registry_entry_per_user script w :
  exec flow script initial = Some w →
  NoDup (userID <$> tutorials w).
Proof.
  intros He. apply exec_sound in He; [|apply initial_sound].
  by destruct He as (_ & ? & _).
Qed.

(** X11.  Messages go where the session was first started.  Whatever the
    schedule from the start of the process, every call on the client is an
    [m.room.message] event sent through the client and to the room recorded
    in some registry entry. *)
Theorem messages_go_to_registered_rooms script w s :
  exec flow script initial = Some w →
  s ∈ outbox w →
  ∃ r, r ∈ tutorials w ∧ sent_room s = roomID r ∧ sent_cli s = cli r
       ∧ sent_type s = "m.room.message".
Proof.
  intros He Hs. apply exec_sound in He; [|apply initial_sound].
  destruct He as (_ & _ & _ & _ & [_ HB]). by apply HB.
Qed.

End Reachable.

(** *** Sessions run to their end *)

Section Completion.

Context `{TemplateEngine} `{Transport}.
Variable flow : TutorialFlow.

Lemma drive_Ready_completes w i t delay :
  parsesAll flow →
  threads w !! i = Some (Ready t delay) →
  -1 ≤ currentStep t < Z.of_nat (length (Steps flow)) →
  ∃ w', drive flow (S (enough flow)) i w = Some w'
    ∧ threads w' !! i = Some (Returned None)
    ∧ contents w' = contents w ++ pending flow t.
Proof.
  intros Hparses Hi Hc.
  destruct (queueNextStep_run flow Hparses t delay (set_running i w))
    as (o & w2 & Hq & Ho); [lia|].
  pose proof (queueNextStep_slice flow _ _ _ _ _ _ Hq) as (Hf & _ & Hp).
  destruct Hf as (_ & _ & Hth2 & _). simpl in Hth2.
  rewrite (drive_Ready flow _ _ _ _ _ _ Hi Hq).
  set (w3 := setThread i (settle KGoroutine (o, w2))).
  assert (threads w3 !! i = Some (settle KGoroutine (o, w2)).1) as Hi3.
  { unfold w3. simpl. rewrite threads_settle. simpl. rewrite Hth2.
    apply list_lookup_insert_eq. by eapply lookup_lt_Some. }
  assert (contents w3 = contents w2) as Hc3 by apply contents_settle.
  destruct o as [t'| |]; [| |done].
  - destruct (Hp t' eq_refl) as (Hc' & _ & k' & x' & Htm' & Hx' & Hst').
    destruct (drive_Waiting flow Hparses (enough flow) w3 i t' KGoroutine k' x')
      as (w4 & -> & Hend & Hcont & _); [done|done|exact Hx'|done|lia| |].
    { unfold enough. lia. }
    exists w4. split; [done|]. split; [done|]. by rewrite Hcont, Hc3, Ho.
  - rewrite (drive_ended _ _ _ _ _ Hi3).
    exists w3. split; [done|]. split; [done|]. by rewrite Hc3, Ho.
Qed.

(** X12.  Every session ends.  In a flow whose non-empty bodies all parse,
    from every world the process can reach, any thread that is working on a
    session runs to its end when its timers deliver one after the other; on
    the way it sends exactly the messages of the steps it had not yet sent,
    in step order. *)
Theorem every_session_ends script w i th t :
  parsesAll flow →
  exec flow script initial = Some w →
  threads w !! i = Some th → cell th = Some t →
  ∃ w' r, drive flow (S (enough flow)) i w = Some w'
    ∧ threads w' !! i = Some (Returned r)
    ∧ contents w' = contents w ++ pending flow t.
Proof.
  intros Hparses He Hi Hc. apply exec_sound in He; [|apply initial_sound].
  destruct He as (_ & _ & (_ & H2 & H3 & _) & Hin & _).
  specialize (Hin i th t Hi Hc).
  destruct th as [t0 delay|t0 k| |]; simplify_eq/=.
  - destruct (drive_Ready_completes w i t delay Hparses Hi Hin) as (w' & ? & ? & ?).
    by exists w', None.
  - destruct (H2 i t k Hi) as [tm Htm].
    destruct (H3 i tm) as (x & Hx & Ha); [by exists t, k|].
    destruct (drive_Waiting flow Hparses (S (enough flow)) w i t k tm x)
      as (w' & ? & ? & ? & _); [done..| |].
    { unfold enough. lia. }
    by exists w', (response k).
Qed.

(** X13.  A restart sends the whole flow again.  In a flow whose non-empty
    bodies all parse, a [start] by a user whose first registry entry is [t]
    returns ["Restarting Riot tutorial"] once the timers of its run have
    delivered, and that run has sent the message of every step of the flow,
    from the first, in order, rendered with the variables of [t]. *)
Theorem restart_sends_the_whole_flow c room user w i t :
  parsesAll flow →
  tutorials w !! i = Some t → userID t = user →
  (∀ j t', (j < i)%nat → tutorials w !! j = Some t' → userID t' ≠ user) →
  ∃ w1 w2,
    act flow (Start c room user) w = Some w1
    ∧ drive flow (enough flow) (length (threads w)) w1 = Some w2
    ∧ threads w2 !! length (threads w)
      = Some (Returned (Some "Restarting Riot tutorial"))
    ∧ contents w2
      = contents w ++ (specMessage flow (templates t) <$> Steps flow).
Proof.
  intros Hparses Hi Hu Hfirst.
  pose proof (findTutorial_first user _ i t Hi Hu Hfirst) as Hfind.
  set (h := length (threads w)).
  destruct (initTutorialFlow_found flow c room user (set_running h w) i t Hfind)
    as (o & w0 & Hr & Hf & Hinit).
  destruct Hf as (_ & _ & Hth & _). simpl in Hth.
  set (r := settle (KRestart i) (o, w0)) in *.
  set (w1 := set_threads (threads r.2 ++ [r.1]) r.2).
  assert (act flow (Start c room user) w = Some w1) as Hact.
  { unfold act. fold h. by rewrite Hinit. }
  assert (threads w1 !! h = Some r.1) as Hh.
  { unfold w1, r. simpl. rewrite threads_settle. simpl. rewrite Hth.
    by apply list_lookup_middle. }
  assert (contents w1 = contents w0) as Hc1 by apply contents_settle.
  exists w1.
  destruct (restart_run flow Hparses t (set_running h w)) as (o' & w0' & Hr' & Ho).
  rewrite Hr in Hr'. simplify_eq.
  pose proof (restart_slice flow _ _ _ _ _ Hr) as (_ & Hp).
  destruct o' as [t'| |]; [| |done].
  - destruct (Hp t' eq_refl) as (Hc' & _ & k' & x' & Htm' & Hx' & Hst').
    destruct (drive_Waiting flow Hparses (enough flow) w1 h t' (KRestart i) k' x')
      as (w2 & Hd & Hend & Hcont & _); [done|done|exact Hx'|done|lia| |].
    { unfold enough. lia. }
    exists w2. split; [done|]. split; [done|]. split; [done|].
    by rewrite Hcont, Hc1, Ho.
  - exists w1. split; [done|]. split; [by rewrite (drive_ended _ _ _ _ _ Hh)|].
    split; [done|]. by rewrite Hc1, Ho.
Qed.

(** X14.  A known user keeps the first room.  When the user's first registry
    entry is [t], [initTutorialFlow] does not look at the room and the client
    it is given: the outcome is the same for any other, and every call it
    makes on the client goes to the room of [t] through the client of [t]. *)
Theorem known_user_keeps_first_room c room user w i t th go w' :
  tutorials w !! i = Some t → userID t = user →
  (∀ j t', (j < i)%nat → tutorials w !! j = Some t' → userID t' ≠ user) →
  timer t = None →
  initTutorialFlow flow c room user w = Some (th, go, w') →
  (∀ c' room', initTutorialFlow flow c' room' user w = Some (th, go, w'))
  ∧ ∃ sent, outbox w' = outbox w ++ sent
      ∧ Forall (λ s, sent_room s = roomID t ∧ sent_cli s = cli t) sent.
Proof.
  intros Hi Hu Hfirst Hnil Hinit.
  pose proof (findTutorial_first user _ i t Hi Hu Hfirst) as Hfind. split.
  - intros c' room'. revert Hinit. unfold initTutorialFlow. by rewrite Hfind.
  - destruct (initTutorialFlow_found flow c room user w i t Hfind)
      as (o & w1 & Hr & _ & Hinit').
    rewrite Hinit' in Hinit. simplify_eq.
    apply restart_effects in Hr as [(sent & Hsent & Hall) _].
    2:{ intros k x Hk. congruence. }
    exists sent. split.
    + by destruct o, i.
    + eapply Forall_impl; [apply Hall|]. by intros s (_ & _ & ? & ? & _).
Qed.

End Completion.

(** ** Concrete runs *)

(** The greeting scenario: without delays the goroutine sends both messages
    in its first slice and ends. *)
Example greeting_scenario :
  ∃ w, exec flowHi [startAnn; Run 1] initial = Some w
    ∧ contents w = [TextMessage "m.text" "hi Ann"; TextMessage "m.notice" "bye"]
    ∧ threads w !! 1%nat = Some (Returned None)
    ∧ timers w = [].
Proof. eexists. split; [by vm_compute|]. repeat split; by vm_compute. Qed.

Lemma parsesAll_flowAB : parsesAll flowAB.
Proof.
  intros ts Hin _. unfold flowAB in Hin. simpl in Hin.
  apply elem_of_cons in Hin as [->|Hin]; [by eexists|].
  apply elem_of_cons in Hin as [->|Hin]; [by eexists|].
  by apply elem_of_nil in Hin.
Qed.

(** C1.  Ann starts the tutorial of [flowAB] (initial delay and first step
    delay 10 ms) and starts it again at 5 ms.  The restart runs a fresh
    sequence from step 0 in the calling thread (thread 2, at 15 ms and
    25 ms), but the run it was meant to replace (thread 1) is not cancelled:
    its steps are sent at 10 ms and 20 ms, after the restart.  Four messages
    go out instead of two. *)
Theorem restart_leaves_prior_run_running :
  ∃ w, exec flowAB restartedAB initial = Some w
    ∧ view <$> outbox w
      = [(ms 10, 1%nat, TextMessage "m.text" "a");
         (ms 15, 2%nat, TextMessage "m.text" "a");
         (ms 20, 1%nat, TextMessage "m.notice" "b");
         (ms 25, 2%nat, TextMessage "m.notice" "b")]
    ∧ threads w
      = [Returned (Some "Starting Riot tutorial"); Returned None;
         Returned (Some "Restarting Riot tutorial")].
Proof. eexists. split; [by vm_compute|]. split; by vm_compute. Qed.

(** C2.  The second [start] of Ann at 5 ms has not returned when
    [initTutorialFlow] stops running: its thread (thread 2) is parked inside
    [restart] on a timer due at 15 ms.  The first [start] did return at once
    (thread 0), leaving the wait to the goroutine. *)
Theorem restart_path_blocks_the_caller :
  ∃ w t, exec flowAB [startAnn; Run 1; Elapse (ms 5); startAnn] initial = Some w
    ∧ threads w !! 0%nat = Some (Returned (Some "Starting Riot tutorial"))
    ∧ threads w !! 2%nat = Some (Waiting t (KRestart 0))
    ∧ timer t = Some 1%nat
    ∧ timers w !! 1%nat = Some {| deadline := ms 15; status := Armed |}
    ∧ now w = ms 5.
Proof.
  eexists _, _. split; [by vm_compute|].
  repeat split; by vm_compute.
Qed.

(** C3.  A body that does not parse: [renderBody] logs that the template
    could not be created and then panics instead of returning the empty
    string, and the [nextStep] that called it ends in that panic. *)
Theorem renderBody_unparseable_body_panics :
  renderBody ann (step "text" "{{" "" 0) initial
  = (None, logPrint LogTemplateCreateFailed initial)
  ∧ ∃ w, nextStep flowBroken (enough flowBroken) (set_currentStep 0 ann) initial
         = Some (Panicked, w)
       ∧ outbox w = [].
Proof. split; [by vm_compute|]. eexists. split; by vm_compute. Qed.

(** C4.  A session of [flowBroken], three steps, never restarted: it sends
    the first message, panics on the second body and is over; the thread
    can take no further step.  One message instead of three. *)
Theorem broken_body_ends_the_session_early :
  ∃ w, exec flowBroken [startAnn; Run 1] initial = Some w
    ∧ length (Steps flowBroken) = 3%nat
    ∧ contents w = [TextMessage "m.text" "ok"]
    ∧ threads w !! 1%nat = Some Crashed
    ∧ act flowBroken (Run 1) w = None ∧ act flowBroken (Fire 1) w = None.
Proof.
  eexists. split; [by vm_compute|].
  repeat split; by vm_compute.
Qed.

(** C6, as the specification has it, fails: the response to a first [start]
    is not ["Starting tutorial"], and the response to a [start] of a user
    who has a session is not ["Restarting tutorial"].  Nor is there a
    response to every invocation: in [flowBroken] the restarted run, which
    executes inside the call, panics on the second body, and the call of a
    user who has a session returns nothing. *)
Lemma response_is_not_the_specified_string :
  ¬ (∃ go w', initTutorialFlow flowAB "neb" "!room" "@ann" initial
              = Some (Returned (Some "Starting tutorial"), go, w'))
  ∧ ¬ (∃ go w', initTutorialFlow flowImage "neb" "!room" "@ann" registered
                = Some (Returned (Some "Restarting tutorial"), go, w'))
  ∧ (∃ w', initTutorialFlow flowBroken "neb" "!room" "@ann" registered
           = Some (Crashed, None, w')
        ∧ contents w' = [TextMessage "m.text" "ok"]).
Proof.
  split; [|split].
  - intros (go & w' & Heq); vm_compute in Heq; discriminate.
  - intros (go & w' & Heq); vm_compute in Heq; discriminate.
  - eexists. split; by vm_compute.
Qed.

Lemma registry_never_mutated_witness :
  exec flowAB oneStep initial = Some (afterAB oneStep)
  ∧ (∃ added, tutorials (afterAB oneStep) = tutorials initial ++ added
       ∧ Forall pristine added ∧ (length added ≤ starts oneStep)%nat)
  ∧ (starts oneStep = 0%nat → tutorials (afterAB oneStep) = tutorials initial)
  ∧ (Forall pristine (tutorials initial) →
     Forall pristine (tutorials (afterAB oneStep))).
Proof.
  split; [by vm_compute|].
  apply (registry_never_mutated flowAB oneStep initial). by vm_compute.
Defined.

Lemma currentStep_monotone_until_restart_witness :
  (∃ t t',
     threads (afterAB parkedAB) !! 1%nat = Some (Waiting t KGoroutine)
     ∧ threads (afterAB oneStep) !! 1%nat = Some (Waiting t' KGoroutine)
     ∧ currentStep t ≤ currentStep t')
  ∧ (∃ o w',
     restart flowAB (enough flowAB) (set_currentStep 1 ann) initial = Some (o, w')
     ∧ (∃ rest, journal w' =
          journal initial ++ LogQueueing "@ann" (-1) (InitialDelay flowAB) :: rest)
     ∧ (0 < InitialDelay flowAB → ∃ t', o = Parked t' ∧ currentStep t' = -1)).
Proof.
  split.
  - eexists _, _. split; [by vm_compute|]. split; [by vm_compute|].
    eapply (proj1 (currentStep_monotone_until_restart flowAB)
              (Fire 1) (afterAB parkedAB) (afterAB oneStep) 1%nat);
      by vm_compute.
  - apply (proj2 (currentStep_monotone_until_restart flowAB)
             (set_currentStep 1 ann) initial).
Defined.

Lemma initTutorialFlow_find_or_create_witness :
  (∃ r, restart flowAB (enough flowAB) ann registered = Some r
     ∧ initTutorialFlow flowAB "neb" "!room" "@ann" registered
       = Some ((settle (KRestart 0) r).1, None, (settle (KRestart 0) r).2)
     ∧ tutorials (settle (KRestart 0) r).2 = tutorials registered)
  ∧ (∃ w', initTutorialFlow flowAB "neb" "!room" "@bob" registered
           = Some (Returned (Some "Starting Riot tutorial"),
                   Some (Ready (NewTutorial "!room" "@bob" "neb" (Templates flowAB))
                               (InitialDelay flowAB)),
                   w')
       ∧ tutorials w'
         = tutorials registered ++ [NewTutorial "!room" "@bob" "neb" (Templates flowAB)]).
Proof.
  split.
  - apply (proj1 (initTutorialFlow_find_or_create flowAB "neb" "!room" "@ann" registered)
             0%nat ann); [reflexivity|reflexivity|intros; lia].
  - apply (proj2 (initTutorialFlow_find_or_create flowAB "neb" "!room" "@bob" registered)).
    intros t Hin. apply list_elem_of_singleton in Hin as ->. by vm_compute.
Defined.

Lemma image_url_is_concatenation_witness :
  ∃ o w',
    nextStep flowImage (enough flowImage) ann initial = Some (o, w')
    ∧ (∀ body, (renderBody ann (step "image" "" "a.png" 0) initial).1 = Some body →
       ∃ s, outbox w' !! length (outbox initial) = Some s
         ∧ sent_content s = ImageMessage "m.image" body ("http://x/" +:+ "a.png"))
    ∧ (∀ s, outbox w' !! length (outbox initial) = Some s →
       ∃ body,
         sent_content s = ImageMessage "m.image" body ("http://x/" +:+ "a.png")
         ∧ (ResourcesBaseURL flowImage = "http://x/" →
            Src (step "image" "" "a.png" 0) = "a.png" →
            sent_content s = ImageMessage "m.image" body "http://x/a.png")).
Proof.
  apply (image_url_is_concatenation flowImage ann initial
           (step "image" "" "a.png" 0)); by vm_compute.
Defined.

Lemma nextStep_message_by_kind_witness :
  ∃ o w' s,
    nextStep flowAB (enough flowAB) ann initial = Some (o, w')
    ∧ outbox w' !! length (outbox initial) = Some s
    ∧ sent_room s = "!room" ∧ sent_cli s = "neb"
    ∧ sent_type s = "m.room.message"
    ∧ (Type_ (step "text" "a" "" 10) = "image" →
       sent_content s = ImageMessage "m.image" "a" ("http://x/" +:+ ""))
    ∧ (Type_ (step "text" "a" "" 10) = "notice" →
       sent_content s = TextMessage "m.notice" "a")
    ∧ (Type_ (step "text" "a" "" 10) ≠ "image" →
       Type_ (step "text" "a" "" 10) ≠ "notice" →
       sent_content s = TextMessage "m.text" "a").
Proof.
  apply (nextStep_message_by_kind flowAB ann initial
           (step "text" "a" "" 10) "a"); by vm_compute.
Defined.

Lemma initTutorialFlow_response_witness :
  (∃ go w', initTutorialFlow flowAB "neb" "!room" "@ann" initial
            = Some (Returned (Some "Starting Riot tutorial"), Some go, w'))
  ∧ (∃ w1 w2,
       act flowAB startAnn registered = Some w1
       ∧ drive flowAB (enough flowAB) (length (threads registered)) w1 = Some w2
       ∧ threads w2 !! length (threads registered)
         = Some (Returned (Some "Restarting Riot tutorial"))).
Proof.
  split.
  - apply (proj1 (initTutorialFlow_response flowAB "neb" "!room" "@ann" initial)).
    intros t Hin. by apply elem_of_nil in Hin.
  - apply (proj2 (initTutorialFlow_response flowAB "neb" "!room" "@ann" registered)).
    + exists ann. split; [apply list_elem_of_singleton|]; reflexivity.
    + exact parsesAll_flowAB.
Defined.

(** ** Runs of the further properties *)

Lemma queueNextStep_timer_due_witness :
  ∃ t' w' x,
    queueNextStep flowAB 0 ann 10 initial = Some (Parked t', w')
    ∧ currentStep t' = currentStep ann
    ∧ timer t' = Some (length (timers initial))
    ∧ timers w' !! length (timers initial) = Some x
    ∧ status x = Armed
    ∧ (10 ≤ 9223372036854 → deadline x = now initial + 10 * Millisecond)
    ∧ (9223372036854 < 10 ≤ 18446744073709 → deadline x = now initial).
Proof. apply (queueNextStep_timer_due flowAB 0 ann 10 initial). lia. Defined.

Lemma failed_substitution_sends_empty_body_witness :
  ∃ o w' e rest,
    @nextStep stubborn transport flowAB (enough flowAB) ann initial = Some (o, w')
    ∧ outbox w' !! length (outbox initial)
      = Some (envelope ann initial (built flowAB (step "text" "a" "" 10) ""))
    ∧ journal w'
      = journal initial
        ++ [LogPerforming (currentStep ann + 1) (userID ann);
            LogTemplateExecFailed; e;
            LogQueueing (userID ann) (currentStep ann + 1)
              (Delay (step "text" "a" "" 10))]
        ++ rest.
Proof.
  apply (@failed_substitution_sends_empty_body stubborn transport flowAB
           ann initial (step "text" "a" "" 10) "a"); by vm_compute.
Defined.

Lemma transport_only_shows_in_the_log_witness :
  ∃ w2, @exec engine failing flowAB oneStep initial = Some w2
    ∧ outbox w2 = outbox (afterAB oneStep)
    ∧ threads w2 = threads (afterAB oneStep)
    ∧ timers w2 = timers (afterAB oneStep)
    ∧ tutorials w2 = tutorials (afterAB oneStep)
    ∧ now w2 = now (afterAB oneStep).
Proof.
  apply (@transport_only_shows_in_the_log engine transport failing flowAB
           oneStep initial (afterAB oneStep)).
  by vm_compute.
Defined.

Lemma no_timer_is_ever_stopped_witness :
  exec flowAB restartedAB initial = Some (default initial (exec flowAB restartedAB initial))
  ∧ ∀ tm x, timers (default initial (exec flowAB restartedAB initial)) !! tm = Some x →
            status x ≠ Stopped.
Proof.
  split; [by vm_compute|].
  apply (no_timer_is_ever_stopped flowAB restartedAB). by vm_compute.
Defined.

Lemma one_armed_timer_per_parked_thread_witness :
  exec flowAB twiceAB initial = Some (afterAB twiceAB)
  ∧ (∀ i t k, threads (afterAB twiceAB) !! i = Some (Waiting t k) →
       ∃ tm x, timer t = Some tm ∧ timers (afterAB twiceAB) !! tm = Some x
               ∧ status x = Armed)
  ∧ (∀ i j t t' k k' tm,
       threads (afterAB twiceAB) !! i = Some (Waiting t k) →
       threads (afterAB twiceAB) !! j = Some (Waiting t' k') →
       timer t = Some tm → timer t' = Some tm → i = j)
  ∧ (∀ tm x, timers (afterAB twiceAB) !! tm = Some x → status x = Armed →
       ∃ i t k, threads (afterAB twiceAB) !! i = Some (Waiting t k)
                ∧ timer t = Some tm).
Proof.
  split; [by vm_compute|].
  apply (one_armed_timer_per_parked_thread flowAB twiceAB). by vm_compute.
Defined.

Lemma parked_thread_can_always_go_on_witness :
  ∃ d w1, 0 ≤ d ∧ act flowAB (Elapse d) (afterAB twiceAB) = Some w1
    ∧ noCrash w1
    ∧ is_Some (act flowAB (Fire 2) w1).
Proof.
  eapply (parked_thread_can_always_go_on flowAB twiceAB (afterAB twiceAB) 2%nat);
    [by vm_compute| |by vm_compute].
  apply (exec_noCrash flowAB twiceAB initial);
    [exact parsesAll_flowAB|apply initial_sound| |by vm_compute].
  intros i. done.
Defined.

Lemma currentStep_stays_in_range_witness :
  ∃ t, threads (afterAB oneStep) !! 1%nat = Some (Waiting t KGoroutine)
    ∧ -1 ≤ currentStep t < Z.of_nat (length (Steps flowAB))
    ∧ (currentStep t + 1 < Z.of_nat (length (Steps flowAB)) →
       is_Some (stepAt flowAB (currentStep t + 1))).
Proof.
  eexists. split; [by vm_compute|].
  eapply (currentStep_stays_in_range flowAB oneStep (afterAB oneStep) 1%nat);
    by vm_compute.
Defined.

Lemma no_crash_when_bodies_parse_witness :
  exec flowAB restartedAB initial = Some (default initial (exec flowAB restartedAB initial))
  ∧ ∀ i, threads (default initial (exec flowAB restartedAB initial)) !! i ≠ Some Crashed.
Proof.
  split; [by vm_compute|].
  apply (no_crash_when_bodies_parse flowAB restartedAB);
    [exact parsesAll_flowAB|by vm_compute].
Defined.

Lemma one_registry_entry_per_user_witness :
  exec flowAB twiceAB initial = Some (afterAB twiceAB)
  ∧ NoDup (userID <$> tutorials (afterAB twiceAB)).
Proof.
  split; [by vm_compute|].
  apply (one_registry_entry_per_user flowAB twiceAB). by vm_compute.
Defined.

Lemma messages_go_to_registered_rooms_witness :
  ∃ s, outbox (afterAB oneStep) !! 0%nat = Some s
    ∧ ∃ r, r ∈ tutorials (afterAB oneStep) ∧ sent_room s = roomID r
           ∧ sent_cli s = cli r ∧ sent_type s = "m.room.message".
Proof.
  eexists. split; [by vm_compute|].
  apply (messages_go_to_registered_rooms flowAB oneStep (afterAB oneStep));
    [by vm_compute|].
  apply (list_elem_of_lookup_2 _ 0%nat). by vm_compute.
Defined.

Lemma every_session_ends_witness :
  ∃ t w' r,
    threads (afterAB twiceAB) !! 1%nat = Some (Waiting t KGoroutine)
    ∧ drive flowAB (S (enough flowAB)) 1 (afterAB twiceAB) = Some w'
    ∧ threads w' !! 1%nat = Some (Returned r)
    ∧ contents w' = contents (afterAB twiceAB) ++ pending flowAB t.
Proof.
  eexists. 
  cut (∃ w' r,
    drive flowAB (S (enough flowAB)) 1 (afterAB twiceAB) = Some w'
    ∧ threads w' !! 1%nat = Some (Returned r)
    ∧ contents w' = contents (afterAB twiceAB) ++ pending flowAB
        (set_timer (Some 0%nat) ann)).
  { intros (w' & r & ? & ? & ?). exists w', r. split; [by vm_compute|done]. }
  eapply (every_session_ends flowAB twiceAB (afterAB twiceAB) 1%nat
            (Waiting (set_timer (Some 0%nat) ann) KGoroutine));
    [exact parsesAll_flowAB|by vm_compute..].
Defined.

Lemma restart_sends_the_whole_flow_witness :
  ∃ w1 w2,
    act flowAB startAnn registered = Some w1
    ∧ drive flowAB (enough flowAB) (length (threads registered)) w1 = Some w2
    ∧ threads w2 !! length (threads registered)
      = Some (Returned (Some "Restarting Riot tutorial"))
    ∧ contents w2
      = contents registered ++ (specMessage flowAB (templates ann) <$> Steps flowAB).
Proof.
  apply (restart_sends_the_whole_flow flowAB "neb" "!room" "@ann" registered 0%nat ann);
    [exact parsesAll_flowAB|reflexivity|reflexivity|intros; lia].
Defined.

Lemma known_user_keeps_first_room_witness :
  ∃ th go w',
    initTutorialFlow flowImage "neb" "!other" "@ann" registered = Some (th, go, w')
    ∧ (∀ c' room',
         initTutorialFlow flowImage c' room' "@ann" registered = Some (th, go, w'))
    ∧ ∃ sent, outbox w' = outbox registered ++ sent
        ∧ Forall (λ s, sent_room s = roomID ann ∧ sent_cli s = cli ann) sent.
Proof.
  eexists _, _, _. split; [by vm_compute|].
  eapply (known_user_keeps_first_room flowImage "neb" "!other" "@ann" registered
            0%nat ann); [reflexivity|reflexivity|intros; lia|reflexivity|].
  by vm_compute.
Defined.

Lemma unrestarted_session_completes_witness :
  ∃ w1 w2,
    act flowAB startAnn initial = Some w1
    ∧ drive flowAB (S (enough flowAB)) (S (length (threads initial))) w1 = Some w2
    ∧ threads w2 !! S (length (threads initial)) = Some (Returned None)
    ∧ contents w2
      = contents initial ++ (specMessage flowAB (Templates flowAB) <$> Steps flowAB)
    ∧ tutorials w2
      = tutorials initial ++ [NewTutorial "!room" "@ann" "neb" (Templates flowAB)].
Proof.
  apply (unrestarted_session_completes flowAB "neb" "!room" "@ann" initial);
    [exact parsesAll_flowAB|].
  intros t Hin. by apply elem_of_nil in Hin.
Defined.

Lemma restart_path_waits_witness :
  ∃ t' w',
    initTutorialFlow flowAB "neb" "!room" "@ann" registered
    = Some (Waiting t' (KRestart 0), None, w')
    ∧ timer t' = Some (length (timers registered))
    ∧ timers w' !! length (timers registered)
      = Some {| deadline := now registered
                            + 0 `max` wrap64 (Millisecond * InitialDelay flowAB);
                status := Armed |}.
Proof.
  apply (restart_path_waits flowAB "neb" "!room" "@ann" registered 0%nat ann);
    by vm_compute.
Defined.

Lemma start_cancels_nothing_witness :
  ∃ w', act flowAB startAnn (afterAB parkedAB) = Some w'
    ∧ timers (afterAB parkedAB) `prefix_of` timers w'
    ∧ threads (afterAB parkedAB) `prefix_of` threads w'.
Proof.
  eexists. split; [by vm_compute|].
  apply (start_cancels_nothing flowAB "neb" "!room" "@ann" (afterAB parkedAB));
    [|by vm_compute].
  change (tutorials (afterAB parkedAB)) with [ann].
  apply Forall_singleton. by split.
Defined.
